(** * Query types generator of graphql_sdk_gen

    A shallow embedding of [graphql_sdk_gen/generators/query_types.py]
    (class [QueryTypesGenerator]) and the properties of its selection
    resolver, annotation rewriter, dependency class synthesizer and module
    emitter.

    Python objects are modelled as follows.
    - [ast] expression nodes used as annotations: the inductive [expr].
    - GraphQL selections: the inductive [selection].
    - dictionaries ([fields], [class_types], [fragments_definitions], the
      schema's root field maps): [gmap string _].
    - the mutable attributes of [self] written during construction
      ([public_names], [used_enums], [used_fragments_names]): the record
      [gen_state], threaded through a state-and-exception monad.
    - exceptions: the constructors of [exn]; a raised exception discards the
      object under construction, so an error carries no state. *)

From Stdlib Require Import String Ascii List.
From stdpp Require Import base option list gmap strings.
Import ListNotations.

Open Scope string_scope.
Open Scope list_scope.

Set Warnings "-register-all".

(** ** Exceptions and outcomes *)

Inductive exn : Type :=
| NotSupported      (* graphql_sdk_gen.exceptions.NotSupported *)
| ParsingError      (* graphql_sdk_gen.exceptions.ParsingError *)
| KeyError          (* builtin: failed dict subscript *)
| AttributeError.   (* builtin: attribute of None / missing attribute *)

(** [OutOfFuel] is not a Python exception: it marks a run whose recursion
    went deeper than the bound given to the model. *)
Inductive outcome (A : Type) : Type :=
| Ok (a : A)
| Err (e : exn)
| OutOfFuel.

Arguments Ok {A} a.
Arguments Err {A} e.
Arguments OutOfFuel {A}.

Definition obind {A B} (x : outcome A) (k : A -> outcome B) : outcome B :=
  match x with
  | Ok a => k a
  | Err e => Err e
  | OutOfFuel => OutOfFuel
  end.

(** ** Python strings *)

(** The double quote character, [chr 34]. *)
Definition dquote : ascii := "034"%char.
Definition dq : string := String dquote EmptyString.

(** [s.replace(dquote, empty)] : every double quote is removed. *)
Fixpoint remove_quotes (s : string) : string :=
  match s with
  | EmptyString => EmptyString
  | String c r =>
      if Ascii.eqb c dquote then remove_quotes r else String c (remove_quotes r)
  end.

(** [s.startswith(dquote)] *)
Definition startswith_quote (s : string) : bool :=
  match s with
  | EmptyString => false
  | String c _ => Ascii.eqb c dquote
  end.

(** [s.endswith(dquote)] *)
Fixpoint endswith_quote (s : string) : bool :=
  match s with
  | EmptyString => false
  | String c EmptyString => Ascii.eqb c dquote
  | String _ r => endswith_quote r
  end.

(** ** ast nodes *)

(** Expression nodes.  [Subscript value slice] is [value[slice]];
    [Tuple elts] is the slice of a [Union]; [OtherExpr src] stands for any
    other expression node (a call, a constant, ...) by its source text. *)
Inductive expr : Type :=
| Name (id : string)
| Subscript (value : expr) (slice : expr)
| Tuple (elts : list expr)
| OtherExpr (src : string).

(** Field definitions held by the schema field registry:
    [Union[ast.AnnAssign, ast.Assign]]. *)
Inductive field_definition : Type :=
| AnnAssign (target : expr) (annotation : expr) (value : option expr)
            (lineno : nat)
| Assign (targets : list expr) (value : expr).

Record ClassDef : Type := mkClassDef {
  cd_name : string;
  cd_bases : list string;
  cd_body : list field_definition
}.

(** [ast.ImportFrom]: [from <level dots><module> import <names>]. *)
Record ImportFrom : Type := mkImportFrom {
  if_names : list string;
  if_module : string;
  if_level : nat
}.

(** The statements of a generated module: an import, a class definition,
    or an expression statement calling a method of a named object. *)
Inductive stmt : Type :=
| Import (i : ImportFrom)
| ClassDefStmt (c : ClassDef)
| ExprMethodCall (obj : string) (method : string).

Record Module : Type := mkModule { body : list stmt }.

(** ** Class kinds *)

(** Modelled from the spec: [schema_types.ClassType] is not among the
    sources; the spec lists the kinds of the Class-Kind Registry as
    OBJECT, INTERFACE, ENUM, UNION, SCALAR, INPUT. *)
Inductive ClassType : Type :=
| OBJECT | INTERFACE | ENUM | UNION_KIND | SCALAR | INPUT.

Global Instance ClassType_eq_dec : EqDecision ClassType.
Proof. solve_decision. Defined.

(** ** Annotation walking and rewriting *)

(** A list comprehension whose element expression may raise: the first
    failure is the failure of the whole. *)
Fixpoint comprehension {A B} (f : A -> outcome B) (l : list A)
  : outcome (list B) :=
  match l with
  | [] => Ok []
  | x :: l' =>
      obind (f x) (fun y => obind (comprehension f l') (fun ys => Ok (y :: ys)))
  end.

(** [_walk_annotation] *)
Fixpoint _walk_annotation (annotation : expr) : list string :=
  match annotation with
  | Name id => [remove_quotes id]
  | Subscript _ slice =>
      match slice with
      | Tuple elts => flat_map _walk_annotation elts
      | _ => _walk_annotation slice
      end
  | _ => []
  end.

(** [_add_prefix_to_annotation] *)
Fixpoint _add_prefix_to_annotation (annotation : expr) (prefix : string)
  : outcome expr :=
  match annotation with
  | Name id =>
      if startswith_quote id && endswith_quote id
      then Ok (Name (dq +:+ prefix +:+ remove_quotes id +:+ dq))
      else Err ParsingError
  | Subscript value slice =>
      match slice with
      | Tuple elts =>
          obind
            (comprehension
               (fun elt => _add_prefix_to_annotation elt prefix) elts)
            (fun elts' => Ok (Subscript value (Tuple elts')))
      | _ =>
          obind (_add_prefix_to_annotation slice prefix) (fun s =>
          Ok (Subscript value s))
      end
  | _ => Err ParsingError
  end.

(** ** GraphQL syntax trees *)

(** A selection: [FieldNode], [FragmentSpreadNode] or [InlineFragmentNode].
    A field's [selection_set] is [None] for a leaf field; an inline
    fragment's [type_condition] is [None] when the fragment has none. *)
Inductive selection : Type :=
| FieldNode (name : string) (selection_set : option (list selection))
| FragmentSpreadNode (name : string)
| InlineFragmentNode (type_condition : option string)
                     (selection_set : list selection).

(** The part of a [FieldNode] the generator reads: [name.value] and
    [selection_set]. *)
Definition field_node : Type := string * option (list selection).

Record FragmentDefinitionNode : Type := mkFragment {
  fd_type_condition : string;
  fd_selection_set : list selection
}.

Inductive OperationType : Type := QUERY | MUTATION | SUBSCRIPTION.

Definition OperationType_eqb (a b : OperationType) : bool :=
  match a, b with
  | QUERY, QUERY | MUTATION, MUTATION | SUBSCRIPTION, SUBSCRIPTION => true
  | _, _ => false
  end.

Record OperationDefinitionNode : Type := mkOperation {
  od_operation : OperationType;
  od_name : option string;
  od_selection_set : list selection
}.

(** ** Mutable state of a generator under construction *)

Record gen_state : Type := mkState {
  public_names : list string;
  used_enums : list string;
  used_fragments_names : gset string
}.

Definition M (A : Type) : Type := gen_state -> outcome (A * gen_state).

Definition ret {A} (a : A) : M A := fun st => Ok (a, st).

Definition bind {A B} (m : M A) (k : A -> M B) : M B :=
  fun st => obind (m st) (fun r => k (fst r) (snd r)).

Definition lift {A} (o : outcome A) : M A :=
  fun st => obind o (fun a => Ok (a, st)).

Definition raise {A} (e : exn) : M A := fun _ => Err e.

Declare Scope gen_scope.
Delimit Scope gen_scope with gen.
Notation "'let*' x ':=' m 'in' k" := (bind m (fun x => k))
  (at level 10, x pattern, m at level 100, k at level 200) : gen_scope.
Open Scope gen_scope.

Definition register_name (n : string) : M unit :=
  fun st => Ok (tt, mkState (public_names st ++ [n]) (used_enums st)
                            (used_fragments_names st)).

Definition record_enum (n : string) (st : gen_state) : gen_state :=
  mkState (public_names st) (used_enums st ++ [n]) (used_fragments_names st).

Definition record_fragment (n : string) : M unit :=
  fun st => Ok (tt, mkState (public_names st) (used_enums st)
                            ({[ n ]} ∪ used_fragments_names st)).

(** ** Helpers of [codegen.py] and [constants.py] *)

(** Modelled from the spec: [constants.OPTIONAL] and [constants.UNION] are
    not among the sources; the emitter imports the optional/union markers
    from [typing]. *)
Definition OPTIONAL : string := "Optional".
Definition UNION : string := "Union".

(** Modelled from the spec: [codegen.generate_import_from] is not among the
    sources; it builds the import statement listing the given names. *)
Definition generate_import_from (names : list string) (from_ : string)
  (level : nat) : stmt := Import (mkImportFrom names from_ level).

(** Modelled from the spec: [codegen.generate_class_def] is not among the
    sources; it builds a named record with the given bases and no field. *)
Definition generate_class_def (name : string) (base_names : list string)
  : ClassDef := mkClassDef name base_names [].

(** Modelled from the spec: [codegen.generate_ann_assign] is not among the
    sources; it builds an output field from its name and type expression. *)
Definition generate_ann_assign (target : string) (annotation : expr)
  (lineno : nat) : field_definition :=
  AnnAssign (Name target) annotation None lineno.

(** Modelled from the spec: [codegen.generate_typename_field_definition] is
    not among the sources; it is the synthetic, string-typed definition of
    the typename meta-field. *)
Definition generate_typename_field_definition : field_definition :=
  AnnAssign (Name "typename__") (Name "str")
            (Some (OtherExpr "Field(alias='__typename')")) 0.

(** Modelled from the spec: [codegen.generate_expr] and
    [codegen.generate_method_call] are not among the sources; together they
    build the statement calling a method of a named class. *)
Definition generate_method_call_expr (obj method : string) : stmt :=
  ExprMethodCall obj method.

(** [class_def.body.append(field_def)] *)
Definition with_body (c : ClassDef) (b : list field_definition) : ClassDef :=
  mkClassDef (cd_name c) (cd_bases c) (cd_body c ++ b).

(** ** The generator *)

Section Generator.

(** The GraphQL library and [codegen.parse_field_type] are not among the
    sources: GraphQL types are an abstract type, and [parse_field_type]
    the function turning one into an annotation. *)
Context {GraphQLType : Type}.
Variable parse_field_type : GraphQLType -> expr.

(** The part of [GraphQLSchema] the generator reads: each root type, when
    the schema has it, as the map from the names of its fields to their
    types ([fields.get(name)], then [.type]). *)
Record GraphQLSchema : Type := mkSchema {
  query_type : option (gmap string GraphQLType);
  mutation_type : option (gmap string GraphQLType)
}.

(** Attributes of [self] that are only read after [__init__] set them. *)
Variable schema : GraphQLSchema.
Variable fields : gmap string (gmap string field_definition).
Variable class_types : gmap string ClassType.
Variable operation : OperationType.
Variable query_name : string.
Variable fragments_definitions : gmap string FragmentDefinitionNode.

(** [_get_field_type_from_schema] *)
Definition _get_field_type_from_schema (name : string)
  : outcome GraphQLType :=
  match (if OperationType_eqb operation QUERY
         then fs ← query_type schema; fs !! name else None) with
  | Some field_type => Ok field_type
  | None =>
      match (if OperationType_eqb operation MUTATION
             then fs ← mutation_type schema; fs !! name else None) with
      | Some field_type => Ok field_type
      | None => Err ParsingError
      end
  end.

(** [_get_schema_field_definition] *)
Definition _get_schema_field_definition (type_name field_name : string)
  : outcome field_definition :=
  if String.eqb field_name "__typename"
  then Ok generate_typename_field_definition
  else match fields !! type_name with
       | None => Err KeyError
       | Some type_fields =>
           match type_fields !! field_name with
           | None => Err KeyError
           | Some d => Ok d
           end
       end.

(** The loop of [_resolve_selection_set]: the fields contributed by each
    selection, appended in order. *)
Fixpoint extend_each (f : selection -> M (list field_node))
  (selections : list selection) : M (list field_node) :=
  match selections with
  | [] => ret []
  | selection :: rest =>
      let* fs := f selection in
      let* fs' := extend_each f rest in
      ret (fs ++ fs')
  end.

(** The body of [_resolve_selection_set]; [rec] is the recursive call
    made for the selection set of a named fragment. *)
Section resolve.
Variable rec : list selection -> string -> M (list field_node).

Fixpoint resolve_selection (root_type : string) (selection : selection)
  {struct selection} : M (list field_node) :=
  match selection with
  | FieldNode name sel => ret [(name, sel)]
  | FragmentSpreadNode name =>
      let* _ := record_fragment name in
      match fragments_definitions !! name with
      | None => raise KeyError
      | Some d => rec (fd_selection_set d) root_type
      end
  | InlineFragmentNode None _ => raise AttributeError
  | InlineFragmentNode (Some cond) sel =>
      if String.eqb cond root_type
      then extend_each (resolve_selection root_type) sel
      else ret []
  end.

Definition resolve_selections (selections : list selection)
  (root_type : string) : M (list field_node) :=
  extend_each (resolve_selection root_type) selections.
End resolve.

(** [_resolve_selection_set]; [fuel] bounds the nesting of fragment
    spreads. *)
Fixpoint _resolve_selection_set (fuel : nat) (selections : list selection)
  (root_type : string) {struct fuel} : M (list field_node) :=
  resolve_selections
    (match fuel with
     | O => fun _ _ _ => OutOfFuel
     | S fuel' => _resolve_selection_set fuel'
     end) selections root_type.

Definition is_object_or_interface (field_type_name : string) : bool :=
  match class_types !! field_type_name with
  | Some OBJECT | Some INTERFACE => true
  | _ => false
  end.

Definition is_enum (field_type_name : string) : bool :=
  match class_types !! field_type_name with
  | Some ENUM => true
  | _ => false
  end.

(** [_procces_annotation] *)
Definition _procces_annotation (annotation : expr)
  (field_type_names : list string) : M expr :=
  if existsb is_object_or_interface field_type_names
  then lift (_add_prefix_to_annotation annotation query_name)
  else fun st =>
    Ok (annotation,
        fold_left
          (fun st field_type_name =>
             if is_enum field_type_name
             then record_enum field_type_name st else st)
          field_type_names st).

(** The loop [for field_type_name in field_type_names] shared by
    [_parse_query] and [_generate_dependency_type_class]; [rec] is
    [_generate_dependency_type_class].  A result that is [None] (or empty)
    is falsy and extends nothing. *)
Fixpoint dependencies_of
  (rec : string -> list selection -> M (option (list ClassDef)))
  (field_type_names : list string) (selection_set : list selection)
  : M (list ClassDef) :=
  match field_type_names with
  | [] => ret []
  | field_type_name :: rest =>
      let* dependencies_defs := rec field_type_name selection_set in
      let* more := dependencies_of rec rest selection_set in
      ret (default [] dependencies_defs ++ more)
  end.

(** [if field.selection_set: for field_type_name in ...] *)
Definition field_dependencies
  (rec : string -> list selection -> M (option (list ClassDef)))
  (field_type_names : list string) (sel : option (list selection))
  : M (list ClassDef) :=
  match sel with
  | Some selection_set => dependencies_of rec field_type_names selection_set
  | None => ret []
  end.

(** The field loop of [_generate_dependency_type_class]: the fields added
    to the class body and the definitions added to [extra_defs]. *)
Fixpoint dependency_fields
  (rec : string -> list selection -> M (option (list ClassDef)))
  (type_name : string) (lineno : nat) (fs : list field_node)
  : M (list field_definition * list ClassDef) :=
  match fs with
  | [] => ret ([], [])
  | (field_name, sel) :: rest =>
      let* orginal_field_definition :=
        lift (_get_schema_field_definition type_name field_name) in
      match orginal_field_definition with
      | Assign _ _ => raise AttributeError
      | AnnAssign target annotation0 value _ =>
          let field_type_names := _walk_annotation annotation0 in
          let* annotation :=
            _procces_annotation annotation0 field_type_names in
          let field_def := AnnAssign target annotation value lineno in
          let* deps := field_dependencies rec field_type_names sel in
          let* r := dependency_fields rec type_name (S lineno) rest in
          ret (field_def :: fst r, deps ++ snd r)
      end
  end.

(** [_generate_dependency_type_class]; [fuel] bounds the depth of the
  recursion. *)
Fixpoint _generate_dependency_type_class (fuel : nat) (type_name : string)
(selection_set : list selection) {struct fuel}
: M (option (list ClassDef)) :=
let class_def :=
  generate_class_def (query_name +:+ type_name) ["BaseModel"] in
fun st =>
  if bool_decide (cd_name class_def ∈ public_names st)
  then Ok (None, st)
  else
    match fuel with
    | O => OutOfFuel
    | S fuel' =>
        (let* _ := register_name (cd_name class_def) in
         let* fs :=
           _resolve_selection_set fuel' selection_set type_name in
         let* r :=
           dependency_fields (_generate_dependency_type_class fuel')
                             type_name 1 fs in
         ret (Some ([with_body class_def (fst r)] ++ snd r))) st
    end.

(** The field loop of [_parse_query]. *)
Fixpoint query_fields
  (rec : string -> list selection -> M (option (list ClassDef)))
  (lineno : nat) (fs : list field_node)
  : M (list field_definition * list ClassDef) :=
  match fs with
  | [] => ret ([], [])
  | (field_name, sel) :: rest =>
      let* field_type := lift (_get_field_type_from_schema field_name) in
      let annotation0 := parse_field_type field_type in
      let field_type_names := _walk_annotation annotation0 in
      let* annotation :=
        _procces_annotation annotation0 field_type_names in
      let field_def := generate_ann_assign field_name annotation lineno in
      let* deps := field_dependencies rec field_type_names sel in
      let* r := query_fields rec (S lineno) rest in
      ret (field_def :: fst r, deps ++ snd r)
  end.

(** [_parse_query]: returns the value [class_defs] has when it ends. *)
Definition _parse_query (fuel : nat) (selection_set : list selection)
  : M (list ClassDef) :=
  let class_def := generate_class_def query_name ["BaseModel"] in
  let* _ := register_name (cd_name class_def) in
  let* fs := _resolve_selection_set fuel selection_set "" in
  let* r := query_fields (_generate_dependency_type_class fuel) 1 fs in
  ret ([with_body class_def (fst r)] ++ snd r).

End Generator.

Arguments GraphQLSchema : clear implicits.

(** ** The generator object *)

Record QueryTypesGenerator : Type := mkGenerator {
  g_query_name : string;
  g_enums_module_name : string;
  g_imports : list stmt;
  g_public_names : list string;
  g_class_defs : list ClassDef;
  g_used_enums : list string;
  g_used_fragments_names : gset string
}.

(** [QueryTypesGenerator.__init__] *)
Definition __init__ {GraphQLType : Type} (fuel : nat)
  (parse_field_type : GraphQLType -> expr)
  (schema : GraphQLSchema GraphQLType)
  (fields : gmap string (gmap string field_definition))
  (class_types : gmap string ClassType)
  (query : OperationDefinitionNode)
  (enums_module_name : string)
  (fragments_definitions : option (gmap string FragmentDefinitionNode))
  (base_model_import : option ImportFrom) : outcome QueryTypesGenerator :=
  let fragments := default ∅ fragments_definitions in
  match od_name query with
  | None => Err NotSupported
  | Some query_name =>
      let imports :=
        [ generate_import_from [OPTIONAL; UNION] "typing" 0;
          generate_import_from ["Field"] "pydantic" 0;
          match base_model_import with
          | Some i => Import i
          | None => generate_import_from ["BaseModel"] "pydantic" 0
          end ] in
      obind
        (_parse_query parse_field_type schema fields class_types
                      (od_operation query) query_name fragments fuel
                      (od_selection_set query) (mkState [] [] ∅))
        (fun r =>
           Ok (mkGenerator query_name enums_module_name imports
                 (public_names (snd r)) (fst r) (used_enums (snd r))
                 (used_fragments_names (snd r))))
  end.

(** [QueryTypesGenerator.generate]: the module, and the generator with its
    [imports] as the call leaves them. *)
Definition generate (self : QueryTypesGenerator)
  : Module * QueryTypesGenerator :=
  let imports :=
    match g_used_enums self with
    | [] => g_imports self
    | _ :: _ =>
        g_imports self ++
        [generate_import_from (g_used_enums self)
                              (g_enums_module_name self) 1]
    end in
  (mkModule
     (imports
      ++ map ClassDefStmt (g_class_defs self)
      ++ map (fun class_def =>
                generate_method_call_expr (cd_name class_def)
                                          "update_forward_refs")
             (g_class_defs self)),
   mkGenerator (g_query_name self) (g_enums_module_name self) imports
     (g_public_names self) (g_class_defs self) (g_used_enums self)
     (g_used_fragments_names self)).

(** ** Specification-side definitions *)

(** A forward-reference quoted identifier: it starts and ends with a double
    quote. *)
Definition is_quoted (id : string) : bool :=
  startswith_quote id && endswith_quote id.

(** A type expression built from named types and optional, list and union
    wrappers only, every named-type leaf of which is forward-reference
    quoted. *)
Fixpoint all_leaves_quoted (a : expr) : bool :=
  match a with
  | Name id => is_quoted id
  | Subscript _ slice =>
      match slice with
      | Tuple elts => forallb all_leaves_quoted elts
      | _ => all_leaves_quoted slice
      end
  | _ => false
  end.

(** The rewriting the spec describes: every named-type leaf becomes the
    quoted [prefix + originalName]; the wrappers are kept as they are. *)
Fixpoint prefix_leaves (prefix : string) (a : expr) : expr :=
  match a with
  | Name id => Name (dq +:+ prefix +:+ remove_quotes id +:+ dq)
  | Subscript value slice =>
      match slice with
      | Tuple elts => Subscript value (Tuple (map (prefix_leaves prefix) elts))
      | _ => Subscript value (prefix_leaves prefix slice)
      end
  | other => other
  end.

(** ** Induction over expressions *)

Section expr_induction.
Variable P : expr -> Prop.
Hypothesis HName : forall id, P (Name id).
Hypothesis HSubscript : forall v s, P v -> P s -> P (Subscript v s).
Hypothesis HTuple : forall elts, Forall P elts -> P (Tuple elts).
Hypothesis HOther : forall src, P (OtherExpr src).

Fixpoint expr_nested_ind (e : expr) : P e :=
    match e with
    | Name id => HName id
    | Subscript v s => HSubscript v s (expr_nested_ind v) (expr_nested_ind s)
    | Tuple elts =>
        HTuple elts
          ((fix go (l : list expr) : Forall P l :=
              match l with
              | [] => Forall_nil_2 P
              | x :: r => Forall_cons_2 P x r (expr_nested_ind x) (go r)
              end) elts)
    | OtherExpr src => HOther src
    end.
End expr_induction.

(** ** Induction over selections *)

Section selection_induction.
Variable P : selection -> Prop.
Hypothesis HField : forall name sel, P (FieldNode name sel).
Hypothesis HSpread : forall name, P (FragmentSpreadNode name).
Hypothesis HInline :
  forall cond sel, Forall P sel -> P (InlineFragmentNode cond sel).

Fixpoint selection_nested_ind (s : selection) : P s :=
  match s with
  | FieldNode name sel => HField name sel
  | FragmentSpreadNode name => HSpread name
  | InlineFragmentNode cond sel =>
      HInline cond sel
        ((fix go (l : list selection) : Forall P l :=
            match l with
            | [] => Forall_nil_2 P
            | x :: r => Forall_cons_2 P x r (selection_nested_ind x) (go r)
            end) sel)
  end.
End selection_induction.

(** The recursive call a given amount of fuel leaves for named fragments. *)
Definition spread_call
  (fragments_definitions : gmap string FragmentDefinitionNode) (fuel : nat)
  : list selection -> string -> M (list field_node) :=
  match fuel with
  | O => fun _ _ _ => OutOfFuel
  | S fuel' => _resolve_selection_set fragments_definitions fuel'
  end.

(** What resolution leaves of the state: only fragment names are added. *)
Definition resolve_frame (st st' : gen_state) : Prop :=
  public_names st' = public_names st /\
  used_enums st' = used_enums st /\
  used_fragments_names st ⊆ used_fragments_names st'.

(** ** The traversal order of the spec *)

Section traversal.
Variable fields : gmap string (gmap string field_definition).
Variable query_name : string.
Variable fragments_definitions : gmap string FragmentDefinitionNode.

(** The selection set resolves, against the root type, to these fields. *)
Definition resolves (selection_set : list selection) (root_type : string)
  (fs : list field_node) : Prop :=
  exists fuel st st',
    _resolve_selection_set fragments_definitions fuel selection_set
                           root_type st = Ok (fs, st').

(** The type expression the schema field registry holds for a field. *)
Definition nested_annotation (type_name field_name : string) : option expr :=
  match _get_schema_field_definition fields type_name field_name with
  | Ok (AnnAssign _ annotation _ _) => Some annotation
  | _ => None
  end.

(** The synthesis order of the spec, as a depth-first traversal: [R] lists
    the names registered so far and the last argument the names of the
    definitions created, in order.
    - [visit]: a candidate name already registered creates nothing;
      otherwise it is registered and comes first, followed by what the
      resolved fields create.
    - [visit_fields]: the fields are taken in order; [ann] gives the type
      expression of a field.
    - [visit_names]: for a field with a nested selection set, the names
      extracted from its type expression are taken in order. *)
Inductive visit : list string -> string -> list selection -> list string
                  -> Prop :=
| visit_seen R type_name sel :
    (query_name +:+ type_name) ∈ R -> visit R type_name sel []
| visit_new R type_name sel fs ns :
    (query_name +:+ type_name) ∉ R ->
    resolves sel type_name fs ->
    visit_fields (R ++ [query_name +:+ type_name])
                 (nested_annotation type_name) fs ns ->
    visit R type_name sel ((query_name +:+ type_name) :: ns)
with visit_fields : list string -> (string -> option expr)
                    -> list field_node -> list string -> Prop :=
| visit_fields_nil R ann : visit_fields R ann [] []
| visit_fields_cons R ann name sel rest a ns1 ns2 :
    ann name = Some a ->
    visit_names R (_walk_annotation a) sel ns1 ->
    visit_fields (R ++ ns1) ann rest ns2 ->
    visit_fields R ann ((name, sel) :: rest) (ns1 ++ ns2)
with visit_names : list string -> list string -> option (list selection)
                   -> list string -> Prop :=
| visit_names_leaf R type_names : visit_names R type_names None []
| visit_names_nil R sel : visit_names R [] (Some sel) []
| visit_names_cons R type_name type_names sel ns1 ns2 :
    visit R type_name sel ns1 ->
    visit_names (R ++ ns1) type_names (Some sel) ns2 ->
    visit_names R (type_name :: type_names) (Some sel) (ns1 ++ ns2).

(** The names [ns] are registered after the names [R], and no duplicate
    arises. *)
Definition registers (R ns : list string) (st' : gen_state) : Prop :=
  public_names st' = R ++ ns /\ (NoDup R -> NoDup (R ++ ns)).

(** What a synthesizer call must satisfy: it creates definitions in the
    order of [visit] and registers exactly their names. *)
Definition synth_sound
  (rec : string -> list selection -> M (option (list ClassDef))) : Prop :=
  forall type_name sel st r st',
    rec type_name sel st = Ok (r, st') ->
    visit (public_names st) type_name sel (map cd_name (default [] r)) /\
    registers (public_names st) (map cd_name (default [] r)) st'.

End traversal.

(** The type expression of a root field: the schema's field type, parsed. *)
Definition root_annotation {GraphQLType : Type}
  (parse_field_type : GraphQLType -> expr)
  (schema : GraphQLSchema GraphQLType) (operation : OperationType)
  (field_name : string) : option expr :=
  match _get_field_type_from_schema schema operation field_name with
  | Ok field_type => Some (parse_field_type field_type)
  | _ => None
  end.

(** The schema's definition of a root field, for the kind of the operation:
    a field of the query type for a query, of the mutation type for a
    mutation, and none for a subscription. *)
Definition schema_root_field {GraphQLType : Type}
  (schema : GraphQLSchema GraphQLType) (operation : OperationType)
  (name : string) : option GraphQLType :=
  match operation with
  | QUERY => fs ← query_type schema; fs !! name
  | MUTATION => fs ← mutation_type schema; fs !! name
  | SUBSCRIPTION => None
  end.

(** The schema field registry's entry for a field of a type. *)
Definition registry_field
  (fields : gmap string (gmap string field_definition))
  (type_name field_name : string) : option field_definition :=
  type_fields ← fields !! type_name; type_fields !! field_name.

(** ** Fuel *)

(** [o2] is what [o1] is, unless [o1] ran out of fuel. *)
Definition refines {A} (o1 o2 : outcome A) : Prop :=
  o1 = OutOfFuel \/ o1 = o2.

Definition mrefines {A} (m1 m2 : M A) : Prop :=
  forall st, refines (m1 st) (m2 st).

(** The imports every generator starts with. *)
Definition initial_imports (base_model_import : option ImportFrom)
  : list ImportFrom :=
  [ mkImportFrom [OPTIONAL; UNION] "typing" 0;
    mkImportFrom ["Field"] "pydantic" 0;
    default (mkImportFrom ["BaseModel"] "pydantic" 0) base_model_import ].

(** The import of the enum module the emitted module has: none when no
    enum name was recorded, else one listing the recorded names. *)
Definition enum_import (self : QueryTypesGenerator) : list ImportFrom :=
  match g_used_enums self with
  | [] => []
  | _ :: _ => [mkImportFrom (g_used_enums self) (g_enums_module_name self) 1]
  end.

(** The statement finalizing the forward references of a class. *)
Definition finalization (class_def : ClassDef) : stmt :=
  ExprMethodCall (cd_name class_def) "update_forward_refs".

(** ** A sample schema and sample operations *)

Module Sample.

Definition quoted (s : string) : string := dq +:+ s +:+ dq.
Definition optional (e : expr) : expr := Subscript (Name OPTIONAL) e.

(** In the samples a GraphQL type is given by the annotation
    [parse_field_type] makes of it. *)
Definition parse (t : expr) : expr := t.

(** [type Query { user: User  friend: User  color: Color
                  background: Color }] *)
Definition schema : GraphQLSchema expr :=
  mkSchema
    (Some {[ "user" := optional (Name (quoted "User"));
             "friend" := optional (Name (quoted "User"));
             "color" := optional (Name (quoted "Color"));
             "background" := optional (Name (quoted "Color")) ]})
    None.

(** [type User { id: ID  name: String  address: Address }]
    [type Address { city: String }] *)
Definition fields : gmap string (gmap string field_definition) :=
  {[ "User" :=
       {[ "id" := AnnAssign (Name "id") (optional (Name "str")) None 1;
          "name" := AnnAssign (Name "name") (optional (Name "str")) None 2;
          "address" := AnnAssign (Name "address")
                         (optional (Name (quoted "Address"))) None 3 ]};
     "Address" :=
       {[ "city" := AnnAssign (Name "city") (optional (Name "str")) None 1 ]}
  ]}.

Definition class_types : gmap string ClassType :=
  {[ "User" := OBJECT; "Address" := OBJECT; "Color" := ENUM ]}.

(** [fragment AddrFields on Address { city }] *)
Definition fragments : gmap string FragmentDefinitionNode :=
  {[ "AddrFields" := mkFragment "Address" [FieldNode "city" None] ]}.

(** [query GetUser { user { id name address { ...AddrFields } } }] *)
Definition get_user : OperationDefinitionNode :=
  mkOperation QUERY (Some "GetUser")
    [FieldNode "user"
       (Some [FieldNode "id" None; FieldNode "name" None;
              FieldNode "address" (Some [FragmentSpreadNode "AddrFields"])])].

(** [{ user { id } }], an operation without a name. *)
Definition unnamed : OperationDefinitionNode :=
  mkOperation QUERY None [FieldNode "user" (Some [FieldNode "id" None])].

(** [query Colors { color background }] *)
Definition colors : OperationDefinitionNode :=
  mkOperation QUERY (Some "Colors")
    [FieldNode "color" None; FieldNode "background" None].

(** [query Pair { user { id } friend { nickname } }]: [User] has no field
    [nickname]. *)
Definition pair : OperationDefinitionNode :=
  mkOperation QUERY (Some "Pair")
    [FieldNode "user" (Some [FieldNode "id" None]);
     FieldNode "friend" (Some [FieldNode "nickname" None])].

(** [query Kind { __typename }] *)
Definition kind : OperationDefinitionNode :=
  mkOperation QUERY (Some "Kind") [FieldNode "__typename" None].

(** [query Nested { user { __typename id } }] *)
Definition nested_kind : OperationDefinitionNode :=
  mkOperation QUERY (Some "Nested")
    [FieldNode "user" (Some [FieldNode "__typename" None;
                             FieldNode "id" None])].

(** [query Root { ... on Query { user { id } } color }] and the same
    without the inline fragment. *)
Definition root_inline : OperationDefinitionNode :=
  mkOperation QUERY (Some "Root")
    [InlineFragmentNode (Some "Query")
       [FieldNode "user" (Some [FieldNode "id" None])];
     FieldNode "color" None].

Definition run_with (fuel : nat) (query : OperationDefinitionNode)
  : outcome QueryTypesGenerator :=
  __init__ fuel parse schema fields class_types query "enums"
           (Some fragments) None.

Definition run : OperationDefinitionNode -> outcome QueryTypesGenerator :=
  run_with 3.

Definition no_generator : QueryTypesGenerator :=
  mkGenerator "" "" [] [] [] [] ∅.

Definition generator_of (o : outcome QueryTypesGenerator)
  : QueryTypesGenerator :=
  match o with Ok g => g | _ => no_generator end.

Definition get_user_generator : QueryTypesGenerator :=
  Eval vm_compute in generator_of (run get_user).

Definition colors_generator : QueryTypesGenerator :=
  Eval vm_compute in generator_of (run colors).

Definition pair_generator : QueryTypesGenerator :=
  Eval vm_compute in generator_of (run pair).

Definition empty_state : gen_state := mkState [] [] ∅.

End Sample.

(** ** The operation renderer *)

(** [chr 10], and the separator of two newlines. *)
Definition newline : ascii := "010"%char.
Definition blank_line : string := String newline (String newline EmptyString).

(** [sep.join(l)] *)
Fixpoint join (sep : string) (l : list string) : string :=
  match l with
  | [] => EmptyString
  | [x] => x
  | x :: r => x +:+ sep +:+ join sep r
  end.

Section Renderer.

(** [graphql.print_ast] is not among the sources: it is a parameter, one
    function for each kind of node it is applied to.  The order in which a
    Python set is iterated is not specified: [set_order] is a parameter
    too. *)
Variable print_operation : OperationDefinitionNode -> string.
Variable print_fragment : FragmentDefinitionNode -> string.
Variable set_order : gset string -> list string.

(** [get_operation_as_str]; [query] and [fragments_definitions] are the
    attributes of [self] of these names.  The set comprehension collects
    the texts of the used fragments, equal texts once. *)
Definition get_operation_as_str (query : OperationDefinitionNode)
  (fragments_definitions : gmap string FragmentDefinitionNode)
  (self : QueryTypesGenerator) : outcome string :=
  let operation_str := print_operation query in
  if decide (g_used_fragments_names self = ∅)
  then Ok operation_str
  else
    obind
      (comprehension
         (fun n => match fragments_definitions !! n with
                   | Some d => Ok (print_fragment d)
                   | None => Err KeyError
                   end)
         (set_order (g_used_fragments_names self)))
      (fun texts =>
         Ok (operation_str +:+ blank_line
             +:+ join blank_line (set_order (list_to_set texts)))).

End Renderer.

(** ** Further specification-side definitions *)

(** The selection that selects a field. *)
Definition field_selection (f : field_node) : selection :=
  FieldNode (fst f) (snd f).

(** A fragment definition with its type condition changed. *)
Definition with_type_condition (f : string -> string)
  (d : FragmentDefinitionNode) : FragmentDefinitionNode :=
  mkFragment (f (fd_type_condition d)) (fd_selection_set d).

(** The line number of a field of a class body, when it is an annotated
    assignment. *)
Definition fd_lineno (d : field_definition) : option nat :=
  match d with
  | AnnAssign _ _ _ lineno => Some lineno
  | Assign _ _ => None
  end.

(** An emitted class as the generator builds them: derived from
    [BaseModel], named with the operation name first, its fields annotated
    assignments numbered from 1. *)
Definition class_well_formed (query_name : string) (c : ClassDef) : Prop :=
  cd_bases c = ["BaseModel"] /\
  (exists type_name, cd_name c = query_name +:+ type_name) /\
  map fd_lineno (cd_body c) = map Some (seq 1 (length (cd_body c))).

(** Every used fragment name is a key of the fragment table. *)
Definition fragments_defined
  (fragments_definitions : gmap string FragmentDefinitionNode)
  (st : gen_state) : Prop :=
  used_fragments_names st ⊆ dom fragments_definitions.

(** A resolution that adds to the used fragment names only keys of the
    fragment table. *)
Definition adds_defined
  (fragments_definitions : gmap string FragmentDefinitionNode)
  (m : M (list field_node)) : Prop :=
  forall st fs st',
    m st = Ok (fs, st') ->
    used_fragments_names st'
      ⊆ used_fragments_names st ∪ dom fragments_definitions.

(** A computation that keeps a property of the state. *)
Definition keeps (I : gen_state -> Prop) {A} (m : M A) : Prop :=
  forall st r st', m st = Ok (r, st') -> I st -> I st'.

(** A synthesizer call whose definitions are all well formed. *)
Definition makes_well_formed (query_name : string)
  (rec : string -> list selection -> M (option (list ClassDef))) : Prop :=
  forall n s st r st',
    rec n s st = Ok (r, st') ->
    Forall (class_well_formed query_name) (default [] r).

(** A field of a synthesized class against the registry's definition of
    the selected field: target and default value are the registry's, the
    annotation is the registry's or its rewriting. *)
Definition copies_definition
  (fields : gmap string (gmap string field_definition))
  (query_name type_name : string) (f : field_node) (d : field_definition)
  : Prop :=
  exists target a value l0 a' l,
    _get_schema_field_definition fields type_name (fst f)
      = Ok (AnnAssign target a value l0) /\
    d = AnnAssign target a' value l /\
    (a' = a \/ a' = prefix_leaves query_name a).

(** ** The flattening of a selection set, as the spec describes it *)

Section flattening.
Variable fragments_definitions : gmap string FragmentDefinitionNode.
Variable root_type : string.

(** [flattens selections fs used]: the selections flatten, against the
    root type, to the field selections [fs], and [used] are the names of
    the fragments spread on the way.
    - a field selection is kept, in its place;
    - a fragment spread is replaced by the flattening of the selection set
      of the fragment of that name, and the name is used;
    - an inline fragment whose type condition is the root type is replaced
      by the flattening of its selection set;
    - an inline fragment with another type condition is skipped. *)
Inductive flattens
  : list selection -> list field_node -> gset string -> Prop :=
| flattens_nil : flattens [] [] ∅
| flattens_field name sel rest fs used :
    flattens rest fs used ->
    flattens (FieldNode name sel :: rest) ((name, sel) :: fs) used
| flattens_spread name d rest ffrag ufrag fs used :
    fragments_definitions !! name = Some d ->
    flattens (fd_selection_set d) ffrag ufrag ->
    flattens rest fs used ->
    flattens (FragmentSpreadNode name :: rest) (ffrag ++ fs)
             ({[ name ]} ∪ ufrag ∪ used)
| flattens_inline_matching sel rest fsel usel fs used :
    flattens sel fsel usel ->
    flattens rest fs used ->
    flattens (InlineFragmentNode (Some root_type) sel :: rest)
             (fsel ++ fs) (usel ∪ used)
| flattens_inline_other cond sel rest fs used :
    cond <> root_type ->
    flattens rest fs used ->
    flattens (InlineFragmentNode (Some cond) sel :: rest) fs used.

End flattening.

(** The state with fragment names added to the used ones. *)
Definition with_fragments (used : gset string) (st : gen_state) : gen_state :=
  mkState (public_names st) (used_enums st) (used ∪ used_fragments_names st).

(** ** The synthesis of the classes, as the spec describes it *)

(** What the field loops read of the definition of a field: the target,
    the type expression and the default value. *)
Definition field_parts : Type := expr * expr * option expr.

(** The definition of a field of a nested type: the registry's, or the
    synthetic one of [__typename]. *)
Definition nested_lookup
  (fields : gmap string (gmap string field_definition))
  (type_name field_name : string) : outcome field_parts :=
  obind (_get_schema_field_definition fields type_name field_name)
    (fun d => match d with
              | AnnAssign target annotation value _ =>
                  Ok (target, annotation, value)
              | Assign _ _ => Err AttributeError
              end).

(** The definition of a root field: its name, the schema's type for it,
    parsed, and no default value. *)
Definition root_lookup {GraphQLType : Type}
  (parse_field_type : GraphQLType -> expr)
  (schema : GraphQLSchema GraphQLType) (operation : OperationType)
  (field_name : string) : outcome field_parts :=
  obind (_get_field_type_from_schema schema operation field_name)
    (fun field_type => Ok (Name field_name, parse_field_type field_type, None)).

(** The expression a field gets: rewritten with the operation name when it
    contains an OBJECT or INTERFACE name (which asks for quoted leaves),
    and as it is otherwise. *)
Definition rewritten (class_types : gmap string ClassType)
  (query_name : string) (a : expr) : option expr :=
  if existsb (is_object_or_interface class_types) (_walk_annotation a)
  then if all_leaves_quoted a then Some (prefix_leaves query_name a) else None
  else Some a.

(** The enum names a field expression records: none when it contains an
    OBJECT or INTERFACE name, else its ENUM names, in order. *)
Definition expression_enums (class_types : gmap string ClassType)
  (a : expr) : list string :=
  if existsb (is_object_or_interface class_types) (_walk_annotation a)
  then []
  else List.filter (is_enum class_types) (_walk_annotation a).

(** What a call of the synthesizer returns for the definitions it
    created. *)
Definition result_of (ds : list ClassDef) : option (list ClassDef) :=
  match ds with
  | [] => None
  | _ :: _ => Some ds
  end.

(** The state after the definitions [ds] were created, the field
    expressions [es] processed and the fragments [used] spread. *)
Definition after (class_types : gmap string ClassType) (ds : list ClassDef)
  (es : list expr) (used : gset string) (st : gen_state) : gen_state :=
  mkState (public_names st ++ map cd_name ds)
          (used_enums st ++ flat_map (expression_enums class_types) es)
          (used ∪ used_fragments_names st).

(** The two field loops have one shape, and differ by the lookup of the
    definition of a field. *)
Fixpoint fields_loop (lookup : string -> outcome field_parts)
  (class_types : gmap string ClassType) (query_name : string)
  (rec : string -> list selection -> M (option (list ClassDef)))
  (lineno : nat) (fs : list field_node)
  : M (list field_definition * list ClassDef) :=
  match fs with
  | [] => ret ([], [])
  | (field_name, sel) :: rest =>
      let* parts := lift (lookup field_name) in
      let field_type_names := _walk_annotation (snd (fst parts)) in
      let* annotation :=
        _procces_annotation class_types query_name (snd (fst parts))
                            field_type_names in
      let* deps := field_dependencies rec field_type_names sel in
      let* r := fields_loop lookup class_types query_name rec (S lineno)
                            rest in
      ret (AnnAssign (fst (fst parts)) annotation (snd parts) lineno :: fst r,
           deps ++ snd r)
  end.

Section synthesis.
Variable fields : gmap string (gmap string field_definition).
Variable class_types : gmap string ClassType.
Variable query_name : string.
Variable fragments_definitions : gmap string FragmentDefinitionNode.

(** The synthesis of the spec, depth first and in field order.  [R] lists
    the names registered so far; the results are the definitions created,
    in order, the field expressions processed, in order, and the names of
    the fragments spread.
    - [synthesizes R type_name selections]: a candidate name already
      registered creates nothing; otherwise the name is registered, the
      selections are flattened against the type, and the class of the type
      comes first, followed by what its fields create.
    - [class_fields R lookup lineno fs]: the fields are taken in order and
      numbered from [lineno]; each gives one field of the class, with the
      target and default value of its definition and the expression
      [rewritten] makes of its type expression, and then the definitions
      its type names create.
    - [type_dependencies R type_names selections]: for a field with a
      nested selection set, the names extracted from its type expression
      are taken in order. *)
Inductive synthesizes
  : list string -> string -> list selection
    -> list ClassDef -> list expr -> gset string -> Prop :=
| synthesizes_registered R type_name sel :
    (query_name +:+ type_name) ∈ R ->
    synthesizes R type_name sel [] [] ∅
| synthesizes_new R type_name sel fs used body ds es used' :
    (query_name +:+ type_name) ∉ R ->
    flattens fragments_definitions type_name sel fs used ->
    class_fields (R ++ [query_name +:+ type_name])
                 (nested_lookup fields type_name) 1 fs body ds es used' ->
    synthesizes R type_name sel
      (mkClassDef (query_name +:+ type_name) ["BaseModel"] body :: ds)
      es (used ∪ used')
with class_fields
  : list string -> (string -> outcome field_parts) -> nat
    -> list field_node
    -> list field_definition -> list ClassDef -> list expr -> gset string
    -> Prop :=
| class_fields_nil R lookup lineno :
    class_fields R lookup lineno [] [] [] [] ∅
| class_fields_cons R lookup lineno name sel rest target a value a'
    ds1 es1 used1 body ds2 es2 used2 :
    lookup name = Ok (target, a, value) ->
    rewritten class_types query_name a = Some a' ->
    type_dependencies R (_walk_annotation a) sel ds1 es1 used1 ->
    class_fields (R ++ map cd_name ds1) lookup (S lineno) rest
                 body ds2 es2 used2 ->
    class_fields R lookup lineno ((name, sel) :: rest)
      (AnnAssign target a' value lineno :: body)
      (ds1 ++ ds2) (a :: es1 ++ es2) (used1 ∪ used2)
with type_dependencies
  : list string -> list string -> option (list selection)
    -> list ClassDef -> list expr -> gset string -> Prop :=
| type_dependencies_leaf R type_names :
    type_dependencies R type_names None [] [] ∅
| type_dependencies_nil R sel :
    type_dependencies R [] (Some sel) [] [] ∅
| type_dependencies_cons R type_name type_names sel
    ds1 es1 used1 ds2 es2 used2 :
    synthesizes R type_name sel ds1 es1 used1 ->
    type_dependencies (R ++ map cd_name ds1) type_names (Some sel)
                      ds2 es2 used2 ->
    type_dependencies R (type_name :: type_names) (Some sel)
      (ds1 ++ ds2) (es1 ++ es2) (used1 ∪ used2).

(** The synthesis reaches a field whose lookup raises [e], everything
    before it in the depth-first order having succeeded: the field is one
    of the fields at hand ([fields_fail_here]), or lies below one of them
    ([fields_fail_below]), or comes after a field that succeeded with all
    it creates ([fields_fail_later]).  A type whose candidate name is
    registered is not entered. *)
Inductive synthesis_fails
  : list string -> string -> list selection -> exn -> Prop :=
| synthesis_fails_new R type_name sel fs used e :
    (query_name +:+ type_name) ∉ R ->
    flattens fragments_definitions type_name sel fs used ->
    fields_fail (R ++ [query_name +:+ type_name])
                (nested_lookup fields type_name) fs e ->
    synthesis_fails R type_name sel e
with fields_fail
  : list string -> (string -> outcome field_parts) -> list field_node
    -> exn -> Prop :=
| fields_fail_here R lookup name sel rest e :
    lookup name = Err e ->
    fields_fail R lookup ((name, sel) :: rest) e
| fields_fail_below R lookup name sel rest target a value a' e :
    lookup name = Ok (target, a, value) ->
    rewritten class_types query_name a = Some a' ->
    dependencies_fail R (_walk_annotation a) sel e ->
    fields_fail R lookup ((name, Some sel) :: rest) e
| fields_fail_later R lookup name sel rest target a value a' ds es used e :
    lookup name = Ok (target, a, value) ->
    rewritten class_types query_name a = Some a' ->
    type_dependencies R (_walk_annotation a) sel ds es used ->
    fields_fail (R ++ map cd_name ds) lookup rest e ->
    fields_fail R lookup ((name, sel) :: rest) e
with dependencies_fail
  : list string -> list string -> list selection -> exn -> Prop :=
| dependencies_fail_first R type_name type_names sel e :
    synthesis_fails R type_name sel e ->
    dependencies_fail R (type_name :: type_names) sel e
| dependencies_fail_later R type_name type_names sel ds es used e :
    synthesizes R type_name sel ds es used ->
    dependencies_fail (R ++ map cd_name ds) type_names sel e ->
    dependencies_fail R (type_name :: type_names) sel e.

End synthesis.

(** What a synthesizer call must satisfy: what it returns is a synthesis
    of the spec. *)
Definition synth_exact
  (fields : gmap string (gmap string field_definition))
  (class_types : gmap string ClassType) (query_name : string)
  (fragments_definitions : gmap string FragmentDefinitionNode)
  (rec : string -> list selection -> M (option (list ClassDef))) : Prop :=
  forall type_name sel st r st',
    rec type_name sel st = Ok (r, st') ->
    exists ds es used,
      synthesizes fields class_types query_name fragments_definitions
                  (public_names st) type_name sel ds es used /\
      r = result_of ds /\ st' = after class_types ds es used st.

(** The generation of the spec for an operation named [query_name]: the
    root selection set is flattened against the empty root type name, and
    the class of the operation comes first, followed by what its fields
    create.  The results are those of the synthesis. *)
Inductive generation {GraphQLType : Type}
  (parse_field_type : GraphQLType -> expr)
  (schema : GraphQLSchema GraphQLType)
  (fields : gmap string (gmap string field_definition))
  (class_types : gmap string ClassType)
  (fragments_definitions : gmap string FragmentDefinitionNode)
  (query : OperationDefinitionNode) (query_name : string)
  : list ClassDef -> list expr -> gset string -> Prop :=
| generation_of_fields fs used body ds es used' :
    od_name query = Some query_name ->
    flattens fragments_definitions "" (od_selection_set query) fs used ->
    class_fields fields class_types query_name fragments_definitions
      [query_name]
      (root_lookup parse_field_type schema (od_operation query)) 1 fs
      body ds es used' ->
    generation parse_field_type schema fields class_types
      fragments_definitions query query_name
      (mkClassDef query_name ["BaseModel"] body :: ds) es (used ∪ used').

(** The generation reaches a field whose lookup raises [e], everything
    before it having succeeded. *)
Inductive generation_fails {GraphQLType : Type}
  (parse_field_type : GraphQLType -> expr)
  (schema : GraphQLSchema GraphQLType)
  (fields : gmap string (gmap string field_definition))
  (class_types : gmap string ClassType)
  (fragments_definitions : gmap string FragmentDefinitionNode)
  (query : OperationDefinitionNode) (query_name : string) : exn -> Prop :=
| generation_fails_in_fields fs used e :
    od_name query = Some query_name ->
    flattens fragments_definitions "" (od_selection_set query) fs used ->
    fields_fail fields class_types query_name fragments_definitions
      [query_name]
      (root_lookup parse_field_type schema (od_operation query)) fs e ->
    generation_fails parse_field_type schema fields class_types
      fragments_definitions query query_name e.

(** The type expressions of the fields of emitted classes, class by
    class. *)
Definition annotations_of (body : list field_definition) : list expr :=
  flat_map (fun d => match d with
                     | AnnAssign _ annotation _ _ => [annotation]
                     | Assign _ _ => []
                     end) body.

Definition emitted_annotations (cds : list ClassDef) : list expr :=
  flat_map (fun c => annotations_of (cd_body c)) cds.

(** The expression emitted for a field expression. *)
Definition emitted_for (class_types : gmap string ClassType)
  (query_name : string) (a : expr) : expr :=
  default a (rewritten class_types query_name a).

(** The generator the generation describes. *)
Definition generator_of_generation (class_types : gmap string ClassType)
  (query_name enums_module_name : string)
  (base_model_import : option ImportFrom)
  (cds : list ClassDef) (es : list expr) (used : gset string)
  : QueryTypesGenerator :=
  mkGenerator query_name enums_module_name
    (map Import (initial_imports base_model_import))
    (map cd_name cds) cds
    (flat_map (expression_enums class_types) es) used.

Scheme synthesizes_mut := Minimality for synthesizes Sort Prop
  with class_fields_mut := Minimality for class_fields Sort Prop
  with type_dependencies_mut := Minimality for type_dependencies Sort Prop.

Combined Scheme synthesis_mutind
  from synthesizes_mut, class_fields_mut, type_dependencies_mut.

Scheme synthesis_fails_mut := Minimality for synthesis_fails Sort Prop
  with fields_fail_mut := Minimality for fields_fail Sort Prop
  with dependencies_fail_mut := Minimality for dependencies_fail Sort Prop.

Combined Scheme synthesis_fails_mutind
  from synthesis_fails_mut, fields_fail_mut, dependencies_fail_mut.

(** More sample data. *)
Module Cases.

(** [fragment Loop on User { id ...Loop }], a fragment that spreads
    itself. *)
Definition looping : gmap string FragmentDefinitionNode :=
  {[ "Loop" := mkFragment "User"
                 [FieldNode "id" None; FragmentSpreadNode "Loop"] ]}.

(** [query Flat { user color }] *)
Definition flat : OperationDefinitionNode :=
  mkOperation QUERY (Some "Flat")
    [FieldNode "user" None; FieldNode "color" None].

(** [subscription Watch { user { id } }] *)
Definition watch : OperationDefinitionNode :=
  mkOperation SUBSCRIPTION (Some "Watch")
    [FieldNode "user" (Some [FieldNode "id" None])].

(** [query Root { ... { user { id } } color }]: an inline fragment
    without a type condition, directly in the root selection set. *)
Definition untyped_root : OperationDefinitionNode :=
  mkOperation QUERY (Some "Root")
    [InlineFragmentNode None
       [FieldNode "user" (Some [FieldNode "id" None])];
     FieldNode "color" None].

(** [query Lost { user { nickname } }]: [User] has no field [nickname]. *)
Definition lost : OperationDefinitionNode :=
  mkOperation QUERY (Some "Lost")
    [FieldNode "user" (Some [FieldNode "nickname" None])].

Definition print_operation (q : OperationDefinitionNode) : string :=
  "operation " +:+ default "" (od_name q).

Definition print_fragment (d : FragmentDefinitionNode) : string :=
  "fragment on " +:+ fd_type_condition d.

Definition flat_generator : QueryTypesGenerator :=
  Eval vm_compute in Sample.generator_of (Sample.run flat).

End Cases.

(** * Properties *)

(** The same, with the property also available for the members of a tuple
    met as the slice of a subscript. *)
Lemma expr_slice_ind (P : expr -> Prop) :
  (forall id, P (Name id)) ->
  (forall v s, (forall elts, s = Tuple elts -> Forall P elts) -> P s ->
               P (Subscript v s)) ->
  (forall elts, P (Tuple elts)) ->
  (forall src, P (OtherExpr src)) ->
  forall e, P e.
Proof.
  intros HN HS HT HO e.
  cut (P e /\ (forall elts, e = Tuple elts -> Forall P elts)); [tauto|].
  induction e using expr_nested_ind.
  - split; [apply HN | discriminate].
  - split; [|discriminate]. apply HS; tauto.
  - split; [apply HT|]. intros elts' [= <-].
    eapply Forall_impl; [eassumption|]. simpl; tauto.
  - split; [apply HO | discriminate].
Qed.

(** ** The annotation rewriter *)

Lemma comprehension_all {A B} (f : A -> outcome B) (g : A -> B)
  (l : list A) :
  Forall (fun x => f x = Ok (g x)) l -> comprehension f l = Ok (map g l).
Proof.
  induction 1 as [|x l Hx _ IH]; simpl; [reflexivity|].
  rewrite Hx; simpl. rewrite IH; reflexivity.
Qed.

Lemma comprehension_fails {A B} (f : A -> outcome B) (e : exn) (l : list A) :
  Forall (fun x => f x = Err e \/ exists y, f x = Ok y) l ->
  Exists (fun x => f x = Err e) l ->
  comprehension f l = Err e.
Proof.
  induction 1 as [|x l Hx Hl IH]; intros Hex.
  - inversion Hex.
  - simpl. destruct Hx as [Hx | [y Hx]]; rewrite Hx; simpl; [reflexivity|].
    inversion Hex as [? ? Hx'|? ? Hex']; subst; [congruence|].
    rewrite (IH Hex'). reflexivity.
Qed.

Lemma add_prefix_spec (prefix : string) (a : expr) :
  _add_prefix_to_annotation a prefix =
  if all_leaves_quoted a then Ok (prefix_leaves prefix a) else Err ParsingError.
Proof.
  induction a as [id | v s Helts IHs | elts | src] using expr_slice_ind;
    try reflexivity.
  destruct s as [id | v' s' | elts | src].
  - simpl in *. rewrite IHs. destruct (is_quoted id); reflexivity.
  - change (_add_prefix_to_annotation (Subscript v (Subscript v' s')) prefix)
        with (obind (_add_prefix_to_annotation (Subscript v' s') prefix)
                    (fun s => Ok (Subscript v s))).
      rewrite IHs.
      change (all_leaves_quoted (Subscript v (Subscript v' s')))
        with (all_leaves_quoted (Subscript v' s')).
      destruct (all_leaves_quoted (Subscript v' s')); reflexivity.
  - specialize (Helts elts eq_refl). simpl.
      destruct (forallb all_leaves_quoted elts) eqn:Hall.
    + rewrite (comprehension_all _ (prefix_leaves prefix)); [reflexivity|].
        rewrite forallb_forall in Hall. rewrite Forall_forall in Helts |- *.
        intros x Hx. rewrite (Helts x Hx), (Hall x); [reflexivity|].
        by apply list_elem_of_In.
    + rewrite (comprehension_fails _ ParsingError); [reflexivity| |].
      * eapply Forall_impl; [exact Helts|]. intros x Hx; simpl in Hx.
           rewrite Hx. destruct (all_leaves_quoted x); eauto.
      * apply Exists_exists.
           assert (exists x, In x elts /\ all_leaves_quoted x = false)
             as (x & Hin & Hx).
           { clear -Hall. induction elts as [|y l IH]; [discriminate|].
             simpl in Hall. apply andb_false_iff in Hall as [Hy|Hl].
             - exists y; simpl; auto.
             - destruct (IH Hl) as (x & ? & ?). exists x; simpl; auto. }
           exists x. split; [by apply list_elem_of_In|].
           rewrite Forall_forall in Helts.
           rewrite (Helts x), Hx; [reflexivity|]. by apply list_elem_of_In.
  - reflexivity.
Qed.

(** ** The selection resolver *)

Lemma extend_each_cons (f : selection -> M (list field_node)) x l st :
  extend_each f (x :: l) st =
  obind (f x st) (fun r1 =>
  obind (extend_each f l (snd r1)) (fun r2 =>
  Ok (fst r1 ++ fst r2, snd r2))).
Proof. reflexivity. Qed.

Lemma extend_each_app (f : selection -> M (list field_node)) l1 l2 st :
  extend_each f (l1 ++ l2) st =
  obind (extend_each f l1 st) (fun r1 =>
  obind (extend_each f l2 (snd r1)) (fun r2 =>
  Ok (fst r1 ++ fst r2, snd r2))).
Proof.
  revert st. induction l1 as [|x l1 IH]; intros st.
  - simpl. destruct (extend_each f l2 st) as [[fs s]| |]; reflexivity.
  - rewrite <- app_comm_cons, !extend_each_cons.
    destruct (f x st) as [[fx s1]| |]; simpl; try reflexivity.
    rewrite IH.
    destruct (extend_each f l1 s1) as [[f1 s2]| |]; simpl; try reflexivity.
    destruct (extend_each f l2 s2) as [[f2 s3]| |]; simpl; try reflexivity.
    by rewrite app_assoc.
Qed.

Section resolver_facts.
Variable fragments_definitions : gmap string FragmentDefinitionNode.

Lemma resolve_unfold fuel selections root_type :
  _resolve_selection_set fragments_definitions fuel selections root_type =
  extend_each
    (resolve_selection fragments_definitions (spread_call fragments_definitions fuel) root_type)
    selections.
Proof. destruct fuel; reflexivity. Qed.

(** An inline fragment with a type condition: spliced in place when the
    condition is the root type, dropped otherwise. *)
Lemma resolve_inline_fragment fuel pre cond sel post root_type st :
  _resolve_selection_set fragments_definitions fuel
    (pre ++ InlineFragmentNode (Some cond) sel :: post) root_type st =
  if String.eqb cond root_type
  then _resolve_selection_set fragments_definitions fuel
         (pre ++ sel ++ post) root_type st
  else _resolve_selection_set fragments_definitions fuel
         (pre ++ post) root_type st.
Proof.
  rewrite !resolve_unfold.
  set (f := resolve_selection _ _ _).
  assert (Hif : forall s1, f (InlineFragmentNode (Some cond) sel) s1 =
            if String.eqb cond root_type then extend_each f sel s1
            else Ok ([], s1)).
  { intros s1. unfold f at 1. simpl.
    destruct (String.eqb cond root_type); reflexivity. }
  rewrite (extend_each_app f pre (_ :: post)).
  destruct (String.eqb cond root_type) eqn:Hc;
    rewrite (extend_each_app f pre);
    destruct (extend_each f pre st) as [[f1 s1]| |]; cbn [obind fst snd];
    try reflexivity; rewrite extend_each_cons, Hif.
  - rewrite extend_each_app.
    destruct (extend_each f sel s1) as [[f2 s2]| |]; cbn [obind fst snd];
      try reflexivity.
  - cbn [obind fst snd].
    destruct (extend_each f post s1) as [[f3 s3]| |]; reflexivity.
Qed.

Lemma resolve_frame_refl st : resolve_frame st st.
Proof. unfold resolve_frame. set_solver. Qed.

Lemma resolve_frame_trans st1 st2 st3 :
  resolve_frame st1 st2 -> resolve_frame st2 st3 -> resolve_frame st1 st3.
Proof.
  unfold resolve_frame. intros (-> & -> & ?) (-> & -> & ?). set_solver.
Qed.

Lemma extend_each_frame (f : selection -> M (list field_node)) l :
  Forall (fun x => forall st fs st', f x st = Ok (fs, st') ->
                                     resolve_frame st st') l ->
  forall st fs st', extend_each f l st = Ok (fs, st') -> resolve_frame st st'.
Proof.
  induction 1 as [|x l Hx _ IH]; intros st fs st'.
  - intros [= <- <-]. apply resolve_frame_refl.
  - rewrite extend_each_cons.
    destruct (f x st) as [[f1 s1]| |] eqn:H1; simpl; try discriminate.
    destruct (extend_each f l s1) as [[f2 s2]| |] eqn:H2; simpl;
      try discriminate.
    intros [= <- <-]. eapply resolve_frame_trans; eauto.
Qed.

Lemma resolve_selection_frame rec root_type :
  (forall l st fs st', rec l root_type st = Ok (fs, st') ->
                       resolve_frame st st') ->
  forall x st fs st',
    resolve_selection fragments_definitions rec root_type x st = Ok (fs, st') ->
    resolve_frame st st'.
Proof.
  intros Hrec x.
  induction x as [name sel | name | cond sel IH] using selection_nested_ind;
    intros st fs st'; simpl.
  - intros [= <- <-]. apply resolve_frame_refl.
  - unfold bind; simpl.
    destruct (fragments_definitions !! name) as [d|]; [|discriminate].
    intros H. apply Hrec in H. destruct H as (Hp & He & Hu); simpl in *.
    unfold resolve_frame. set_solver.
  - destruct cond as [cond|]; [|discriminate].
    destruct (String.eqb cond root_type).
    + apply extend_each_frame. exact IH.
    + intros [= <- <-]. apply resolve_frame_refl.
Qed.

Lemma resolve_selection_set_frame fuel l root_type st fs st' :
  _resolve_selection_set fragments_definitions fuel l root_type st
    = Ok (fs, st') ->
  resolve_frame st st'.
Proof.
  revert l st fs st'. induction fuel as [|fuel IH]; intros l st fs st';
    rewrite resolve_unfold; apply extend_each_frame, Forall_forall;
    intros x _; apply resolve_selection_frame; simpl; [discriminate|].
  intros l0 st0 fs0 st0'. apply IH.
Qed.

(** A fragment spread: the fragment's own selection set is resolved, one
    level of fuel lower, where the spread stands. *)
Lemma resolve_spread fuel pre name post root_type st :
  _resolve_selection_set fragments_definitions (S fuel)
    (pre ++ FragmentSpreadNode name :: post) root_type st =
  obind (_resolve_selection_set fragments_definitions (S fuel) pre root_type st)
    (fun r1 =>
       match fragments_definitions !! name with
       | None => Err KeyError
       | Some d =>
           obind (_resolve_selection_set fragments_definitions fuel
                    (fd_selection_set d) root_type
                    (mkState (public_names (snd r1)) (used_enums (snd r1))
                             ({[ name ]} ∪ used_fragments_names (snd r1))))
             (fun r2 =>
                obind (_resolve_selection_set fragments_definitions (S fuel)
                         post root_type (snd r2))
                  (fun r3 => Ok (fst r1 ++ fst r2 ++ fst r3, snd r3)))
       end).
Proof.
  rewrite !(resolve_unfold (S fuel)).
  set (f := resolve_selection _ _ _).
  rewrite extend_each_app.
  destruct (extend_each f pre st) as [[f1 s1]| |]; cbn [obind fst snd];
    try reflexivity.
  rewrite extend_each_cons.
  assert (f (FragmentSpreadNode name) s1 =
          match fragments_definitions !! name with
          | None => Err KeyError
          | Some d =>
              _resolve_selection_set fragments_definitions fuel
                (fd_selection_set d) root_type
                (mkState (public_names s1) (used_enums s1)
                         ({[ name ]} ∪ used_fragments_names s1))
          end) as ->.
  { unfold f at 1. simpl. unfold bind. simpl.
    destruct (fragments_definitions !! name); reflexivity. }
  destruct (fragments_definitions !! name) as [d|]; [|reflexivity].
  destruct (_resolve_selection_set _ fuel _ _ _) as [[f2 s2]| |];
    cbn [obind fst snd]; try reflexivity.
  destruct (extend_each f post s2) as [[f3 s3]| |]; reflexivity.
Qed.

Lemma resolve_needs_fuel pre name post root_type st fs st' :
  _resolve_selection_set fragments_definitions 0
    (pre ++ FragmentSpreadNode name :: post) root_type st <> Ok (fs, st').
Proof.
  rewrite resolve_unfold, extend_each_app.
  destruct (extend_each _ pre st) as [[f1 s1]| |]; cbn [obind fst snd];
    try discriminate.
  rewrite extend_each_cons. simpl. unfold bind. simpl.
  destruct (fragments_definitions !! name); discriminate.
Qed.

End resolver_facts.

(** ** The dependency class synthesizer *)

Ltac obind_inv H :=
  match type of H with
  | obind ?x _ = Ok _ =>
      let E := fresh "E" in
      destruct x eqn:E; cbn [obind] in H; [|discriminate H..]
  end.

Lemma registers_nil st st' :
  public_names st' = public_names st -> registers (public_names st) [] st'.
Proof. intros H. unfold registers. rewrite H, app_nil_r. done. Qed.

Lemma registers_app R ns1 ns2 st1 st2 :
  registers R ns1 st1 -> registers (public_names st1) ns2 st2 ->
  registers R (ns1 ++ ns2) st2.
Proof.
  intros [H1 N1] [H2 N2]. rewrite H1 in H2, N2.
  rewrite <- !app_assoc in H2, N2. split; auto.
Qed.

Section synthesizer_facts.
Context {GraphQLType : Type}.
Variable parse_field_type : GraphQLType -> expr.
Variable schema : GraphQLSchema GraphQLType.
Variable fields : gmap string (gmap string field_definition).
Variable class_types : gmap string ClassType.
Variable operation : OperationType.
Variable query_name : string.
Variable fragments_definitions : gmap string FragmentDefinitionNode.

Lemma record_enums_frame names st :
  let st' := fold_left
               (fun st n => if is_enum class_types n
                            then record_enum n st else st) names st in
  public_names st' = public_names st /\
  used_fragments_names st' = used_fragments_names st /\
  used_enums st' = used_enums st ++ List.filter (is_enum class_types) names.
Proof.
  revert st. induction names as [|n names IH]; intros st; simpl.
  - by rewrite app_nil_r.
  - destruct (IH (if is_enum class_types n then record_enum n st else st))
      as (Hp & Hf & He).
    rewrite Hp, Hf, He.
    destruct (is_enum class_types n) eqn:Hn; simpl; [|done].
    by rewrite <- app_assoc.
Qed.

Lemma procces_annotation_public a names st a' st' :
  _procces_annotation class_types query_name a names st = Ok (a', st') ->
  public_names st' = public_names st.
Proof.
  unfold _procces_annotation.
  destruct (existsb _ _).
  - unfold lift. intros H. obind_inv H. by injection H as <- <-.
  - intros [= <- <-]. apply record_enums_frame.
Qed.

Lemma dependencies_of_sound rec :
  synth_sound fields query_name fragments_definitions rec ->
  forall type_names sel st ds st',
    dependencies_of rec type_names sel st = Ok (ds, st') ->
    visit_names fields query_name fragments_definitions
      (public_names st) type_names (Some sel) (map cd_name ds) /\
    registers (public_names st) (map cd_name ds) st'.
Proof.
  intros Hrec type_names sel.
  induction type_names as [|n type_names IH]; intros st ds st'; simpl.
  - intros [= <- <-]. split; [constructor | by apply registers_nil].
  - unfold bind. intros H.
    obind_inv H. destruct a as [r s1]. cbn [fst snd] in H.
    obind_inv H. destruct a as [more s2]. cbn [fst snd] in H.
    injection H as <- <-.
    apply Hrec in E as [Hv Hr]. apply IH in E0 as [Hvs Hrs].
    rewrite map_app.
    assert (Hs1 : public_names s1 =
                  public_names st ++ map cd_name (default [] r))
      by apply Hr.
    split.
    + constructor; [exact Hv|]. by rewrite <- Hs1.
    + eapply registers_app; eauto.
Qed.

Lemma field_dependencies_sound rec :
  synth_sound fields query_name fragments_definitions rec ->
  forall type_names sel st ds st',
    field_dependencies rec type_names sel st = Ok (ds, st') ->
    visit_names fields query_name fragments_definitions
      (public_names st) type_names sel (map cd_name ds) /\
    registers (public_names st) (map cd_name ds) st'.
Proof.
  intros Hrec type_names [sel|] st ds st'; simpl.
  - by apply dependencies_of_sound.
  - intros [= <- <-]. split; [constructor | by apply registers_nil].
Qed.

Lemma dependency_fields_sound rec :
  synth_sound fields query_name fragments_definitions rec ->
  forall type_name fs lineno st r st',
    dependency_fields fields class_types query_name rec type_name lineno fs st
      = Ok (r, st') ->
    visit_fields fields query_name fragments_definitions
      (public_names st) (nested_annotation fields type_name) fs
      (map cd_name (snd r)) /\
    registers (public_names st) (map cd_name (snd r)) st'.
Proof.
  intros Hrec type_name fs.
  induction fs as [|[name sel] rest IH]; intros lineno st r st'; simpl.
  - intros [= <- <-]. split; [constructor | by apply registers_nil].
  - unfold bind, lift. intros H.
    destruct (_get_schema_field_definition fields type_name name)
      as [[target a value l0 | ? ?] | |] eqn:Hdef;
      cbn [obind fst snd] in H; try discriminate H.
    obind_inv H. destruct a0 as [a' s1]. cbn [fst snd] in H.
    obind_inv H. destruct a0 as [deps s2]. cbn [fst snd] in H.
    obind_inv H. destruct a0 as [r' s3]. cbn [fst snd] in H.
    injection H as <- <-. cbn [snd].
    apply procces_annotation_public in E.
    apply (field_dependencies_sound _ Hrec) in E0 as [Hv Hr].
    apply IH in E1 as [Hvs Hrs].
    rewrite E in Hv, Hr. rewrite map_app.
    assert (Hs2 : public_names s2 = public_names st ++ map cd_name deps)
      by apply Hr.
    split.
    + econstructor; [|exact Hv|by rewrite <- Hs2].
      unfold nested_annotation. by rewrite Hdef.
    + eapply registers_app; eauto.
Qed.

Lemma query_fields_sound rec :
  synth_sound fields query_name fragments_definitions rec ->
  forall fs lineno st r st',
    query_fields parse_field_type schema class_types operation query_name
                 rec lineno fs st = Ok (r, st') ->
    visit_fields fields query_name fragments_definitions
      (public_names st) (root_annotation parse_field_type schema operation)
      fs (map cd_name (snd r)) /\
    registers (public_names st) (map cd_name (snd r)) st'.
Proof.
  intros Hrec fs.
  induction fs as [|[name sel] rest IH]; intros lineno st r st'; simpl.
  - intros [= <- <-]. split; [constructor | by apply registers_nil].
  - unfold bind, lift. intros H.
    destruct (_get_field_type_from_schema schema operation name)
      as [field_type | |] eqn:Hdef;
      cbn [obind fst snd] in H; try discriminate H.
    obind_inv H. destruct a as [a' s1]. cbn [fst snd] in H.
    obind_inv H. destruct a as [deps s2]. cbn [fst snd] in H.
    obind_inv H. destruct a as [r' s3]. cbn [fst snd] in H.
    injection H as <- <-. cbn [snd].
    apply procces_annotation_public in E.
    apply (field_dependencies_sound _ Hrec) in E0 as [Hv Hr].
    apply IH in E1 as [Hvs Hrs].
    rewrite E in Hv, Hr. rewrite map_app.
    assert (Hs2 : public_names s2 = public_names st ++ map cd_name deps)
      by apply Hr.
    split.
    + econstructor; [|exact Hv|by rewrite <- Hs2].
      unfold root_annotation. by rewrite Hdef.
    + eapply registers_app; eauto.
Qed.

Lemma generate_dependency_type_class_sound fuel :
  synth_sound fields query_name fragments_definitions
    (_generate_dependency_type_class fields class_types query_name
       fragments_definitions fuel).
Proof.
  induction fuel as [|fuel IH]; intros type_name sel st r st'; simpl;
    case_bool_decide as Hin; try discriminate.
  - intros [= <- <-]. split; [by constructor | by apply registers_nil].
  - intros [= <- <-]. split; [by constructor | by apply registers_nil].
  - unfold bind. cbn [register_name obind fst snd]. intros H.
    obind_inv H. destruct a as [fs s1]. cbn [fst snd] in H.
    obind_inv H. destruct a as [r' s2]. cbn [fst snd] in H.
    injection H as <- <-. simpl.
    pose proof (resolve_selection_set_frame _ _ _ _ _ _ _ E) as (Hp & _ & _).
    cbn [public_names] in Hp.
    apply (dependency_fields_sound _ IH) in E0 as [Hv [Hr Hn]].
    rewrite Hp in Hv, Hr, Hn. split.
    + econstructor; [exact Hin| |exact Hv].
      eexists _, _, _. exact E.
    + split.
      * by rewrite Hr, <- app_assoc.
      * intros HR. rewrite cons_middle, app_assoc. apply Hn.
        apply NoDup_app. repeat split; [done| |apply NoDup_singleton].
        intros x Hx ->%list_elem_of_singleton. done.
Qed.

Lemma parse_query_sound fuel selection_set st cds st' :
  _parse_query parse_field_type schema fields class_types operation
               query_name fragments_definitions fuel selection_set st
    = Ok (cds, st') ->
  exists root extra fs,
    cds = root :: extra /\
    cd_name root = query_name /\
    resolves fragments_definitions selection_set "" fs /\
    visit_fields fields query_name fragments_definitions
      (public_names st ++ [query_name])
      (root_annotation parse_field_type schema operation) fs
      (map cd_name extra) /\
    registers (public_names st ++ [query_name]) (map cd_name extra) st'.
Proof.
  unfold _parse_query, bind. cbn [register_name obind fst snd]. intros H.
  obind_inv H. destruct a as [fs s1]. cbn [fst snd] in H.
  obind_inv H. destruct a as [r s2]. cbn [fst snd] in H.
  injection H as <- <-.
  pose proof (resolve_selection_set_frame _ _ _ _ _ _ _ E) as (Hp & _ & _).
  cbn [public_names] in Hp.
  apply (query_fields_sound _ (generate_dependency_type_class_sound fuel))
    in E0 as [Hv Hr].
  rewrite Hp in Hv, Hr.
  eexists _, _, fs. split; [reflexivity|]. split; [reflexivity|].
  split; [by eexists _, _, _|]. split; assumption.
Qed.

End synthesizer_facts.

(** ** The generator object *)

Lemma init_inv {GraphQLType : Type} fuel
  (parse_field_type : GraphQLType -> expr) schema fields class_types query
  enums_module_name fragments_definitions base_model_import g :
  __init__ fuel parse_field_type schema fields class_types query
           enums_module_name fragments_definitions base_model_import = Ok g ->
  exists query_name cds st',
    od_name query = Some query_name /\
    _parse_query parse_field_type schema fields class_types
      (od_operation query) query_name (default ∅ fragments_definitions) fuel
      (od_selection_set query) (mkState [] [] ∅) = Ok (cds, st') /\
    g = mkGenerator query_name enums_module_name
          (map Import (initial_imports base_model_import))
          (public_names st') cds (used_enums st') (used_fragments_names st').
Proof.
  unfold __init__. destruct (od_name query) as [query_name|]; [|discriminate].
  intros H. obind_inv H. destruct a as [cds st']. injection H as <-.
  exists query_name, cds, st'. split; [reflexivity|]. split; [exact E|].
  destruct base_model_import; reflexivity.
Qed.

(** ** Lookups *)

Lemma get_field_type_from_schema_spec {GraphQLType : Type}
  (schema : GraphQLSchema GraphQLType) operation name :
  _get_field_type_from_schema schema operation name =
  match schema_root_field schema operation name with
  | Some field_type => Ok field_type
  | None => Err ParsingError
  end.
Proof.
  unfold _get_field_type_from_schema, schema_root_field.
  destruct operation; simpl;
    destruct (query_type schema) as [q|], (mutation_type schema) as [m|];
    simpl; try reflexivity;
    repeat match goal with |- context [?x !! name] => destruct (x !! name) end;
    reflexivity.
Qed.

Lemma get_schema_field_definition_spec fields type_name field_name :
  _get_schema_field_definition fields type_name field_name =
  if String.eqb field_name "__typename"
  then Ok generate_typename_field_definition
  else match registry_field fields type_name field_name with
       | Some d => Ok d
       | None => Err KeyError
       end.
Proof.
  unfold _get_schema_field_definition, registry_field.
  destruct (String.eqb _ _); [reflexivity|].
  destruct (fields !! type_name) as [tf|]; simpl; [|reflexivity].
  destruct (tf !! field_name); reflexivity.
Qed.

Section field_loops.
Context {GraphQLType : Type}.
Variable parse_field_type : GraphQLType -> expr.
Variable schema : GraphQLSchema GraphQLType.
Variable fields : gmap string (gmap string field_definition).
Variable class_types : gmap string ClassType.
Variable operation : OperationType.
Variable query_name : string.
Variable rec : string -> list selection -> M (option (list ClassDef)).

(** Fields before a root field without a schema definition are processed;
    at that field the loop raises [ParsingError]. *)
Lemma query_fields_undefined pre name sel rest lineno st :
  schema_root_field schema operation name = None ->
  query_fields parse_field_type schema class_types operation query_name rec
               lineno (pre ++ (name, sel) :: rest) st =
  obind (query_fields parse_field_type schema class_types operation
                      query_name rec lineno pre st)
        (fun _ => Err ParsingError).
Proof.
  intros Hnone. revert lineno st.
  induction pre as [|[n s] pre IH]; intros lineno st; simpl.
  - unfold bind, lift. rewrite get_field_type_from_schema_spec, Hnone.
    reflexivity.
  - unfold bind, lift.
    destruct (_get_field_type_from_schema schema operation n)
      as [t | |]; cbn [obind fst snd]; try reflexivity.
    destruct (_procces_annotation _ _ _ _ st) as [[a s1]| |];
      cbn [obind fst snd]; try reflexivity.
    destruct (field_dependencies _ _ _ s1) as [[d s2]| |];
      cbn [obind fst snd]; try reflexivity.
    rewrite IH.
    destruct (query_fields _ _ _ _ _ _ _ pre s2) as [[r s3]| |];
      reflexivity.
Qed.

End field_loops.

(** ** Quoting *)

Lemma remove_quotes_app s1 s2 :
  remove_quotes (s1 +:+ s2) = remove_quotes s1 +:+ remove_quotes s2.
Proof.
  induction s1 as [|c s1 IH]; simpl; [reflexivity|].
  destruct (Ascii.eqb c dquote); simpl; by rewrite IH.
Qed.

Lemma remove_quotes_idemp s : remove_quotes (remove_quotes s) = remove_quotes s.
Proof.
  induction s as [|c s IH]; simpl; [reflexivity|].
  destruct (Ascii.eqb c dquote) eqn:Hc; simpl; [exact IH|].
  by rewrite Hc, IH.
Qed.

Lemma append_empty_r s : s +:+ "" = s.
Proof.
  induction s as [|c s IH]; [reflexivity|].
  change (String c (s +:+ "") = String c s). by rewrite IH.
Qed.

Lemma append_nonempty s t : t <> "" -> s +:+ t <> "".
Proof. intros Ht. destruct s; [exact Ht | discriminate]. Qed.

Lemma endswith_quote_append s t :
  t <> "" -> endswith_quote (s +:+ t) = endswith_quote t.
Proof.
  intros Ht. induction s as [|c s IH]; [reflexivity|].
  change (endswith_quote (String c (s +:+ t)) = endswith_quote t).
  pose proof (append_nonempty s t Ht) as Hne.
  simpl. destruct (s +:+ t); [done | exact IH].
Qed.

Lemma is_quoted_wrap prefix name :
  is_quoted (dq +:+ prefix +:+ name +:+ dq) = true.
Proof.
  unfold is_quoted. apply andb_true_iff. split; [reflexivity|].
  assert (Hdq : dq <> "") by discriminate.
  rewrite !endswith_quote_append; auto using append_nonempty.
Qed.

(** The names of a rewritten expression: the prefix before each original
    name. *)
Lemma walk_prefix_leaves prefix a :
  _walk_annotation (prefix_leaves prefix a) =
  map (fun n => remove_quotes prefix +:+ n) (_walk_annotation a).
Proof.
  induction a as [id | v s Helts IHs | elts | src] using expr_slice_ind;
    try reflexivity.
  - simpl. rewrite !remove_quotes_app, remove_quotes_idemp. simpl.
    by rewrite append_empty_r.
  - destruct s as [id | v' s' | elts | src]; try exact IHs.
    + change (prefix_leaves prefix (Subscript v (Subscript v' s')))
        with (Subscript v (prefix_leaves prefix (Subscript v' s'))).
      change (_walk_annotation (Subscript v (Subscript v' s')))
        with (_walk_annotation (Subscript v' s')).
      rewrite <- IHs. simpl. by destruct s'.
    + specialize (Helts elts eq_refl). simpl.
      induction Helts as [|x l Hx _ IH]; simpl; [reflexivity|].
      by rewrite map_app, Hx, IH.
Qed.

(** A rewritten expression has every leaf quoted when the original has. *)
Lemma prefix_leaves_quoted prefix a :
  implb (all_leaves_quoted a) (all_leaves_quoted (prefix_leaves prefix a))
  = true.
Proof.
  induction a as [id | v s Helts IHs | elts | src] using expr_slice_ind;
    try reflexivity.
  - change (implb (is_quoted id)
              (is_quoted (dq +:+ prefix +:+ remove_quotes id +:+ dq)) = true).
    rewrite is_quoted_wrap. by destruct (is_quoted id).
  - destruct s as [id | v' s' | elts | src]; try exact IHs.
    + change (prefix_leaves prefix (Subscript v (Subscript v' s')))
        with (Subscript v (prefix_leaves prefix (Subscript v' s'))).
      change (all_leaves_quoted (Subscript v (Subscript v' s')))
        with (all_leaves_quoted (Subscript v' s')).
      destruct (all_leaves_quoted (Subscript v' s')); [|reflexivity].
      simpl in IHs |- *. by destruct s'.
    + specialize (Helts elts eq_refl). clear IHs. simpl.
      induction Helts as [|x l Hx _ IH]; simpl; [reflexivity|].
      destruct (all_leaves_quoted x); simpl in *; [|reflexivity].
      rewrite Hx. exact IH.
Qed.

(** ** More fuel changes no result *)

Lemma mrefines_refl {A} (m : M A) : mrefines m m.
Proof. intros st. by right. Qed.

Lemma mrefines_bind {A B} (m1 m2 : M A) (k1 k2 : A -> M B) :
  mrefines m1 m2 -> (forall a, mrefines (k1 a) (k2 a)) ->
  mrefines (bind m1 k1) (bind m2 k2).
Proof.
  intros Hm Hk st. unfold bind.
  destruct (Hm st) as [-> | <-]; [by left|].
  destruct (m1 st) as [[a s]| |]; simpl; [apply Hk | by right | by right].
Qed.

Lemma refines_trans {A} (o1 o2 o3 : outcome A) :
  refines o1 o2 -> refines o2 o3 -> refines o1 o3.
Proof. intros [-> | ->]; [by left | done]. Qed.

Section fuel_facts.
Context {GraphQLType : Type}.
Variable parse_field_type : GraphQLType -> expr.
Variable schema : GraphQLSchema GraphQLType.
Variable fields : gmap string (gmap string field_definition).
Variable class_types : gmap string ClassType.
Variable operation : OperationType.
Variable query_name : string.
Variable fragments_definitions : gmap string FragmentDefinitionNode.

Lemma extend_each_refines f1 f2 l :
  Forall (fun x => mrefines (f1 x) (f2 x)) l ->
  mrefines (extend_each f1 l) (extend_each f2 l).
Proof.
  induction 1 as [|x l Hx _ IH]; simpl; [apply mrefines_refl|].
  apply mrefines_bind; [exact Hx|]. intros fs.
  apply mrefines_bind; [exact IH|]. intros fs'. apply mrefines_refl.
Qed.

Lemma resolve_selection_refines rec1 rec2 root_type :
  (forall l, mrefines (rec1 l root_type) (rec2 l root_type)) ->
  forall x,
    mrefines (resolve_selection fragments_definitions rec1 root_type x)
             (resolve_selection fragments_definitions rec2 root_type x).
Proof.
  intros Hrec x.
  induction x as [name sel | name | cond sel IH] using selection_nested_ind;
    simpl.
  - apply mrefines_refl.
  - apply mrefines_bind; [apply mrefines_refl|]. intros _.
    destruct (fragments_definitions !! name); [apply Hrec|apply mrefines_refl].
  - destruct cond as [cond|]; [|apply mrefines_refl].
    destruct (String.eqb cond root_type); [|apply mrefines_refl].
    by apply extend_each_refines.
Qed.

Lemma resolve_selection_set_fuel fuel l root_type :
  mrefines (_resolve_selection_set fragments_definitions fuel l root_type)
           (_resolve_selection_set fragments_definitions (S fuel) l root_type).
Proof.
  revert l. induction fuel as [|fuel IH]; intros l;
    rewrite !resolve_unfold; apply extend_each_refines, Forall_forall;
    intros x _; apply resolve_selection_refines; intros l0; simpl.
  - intros st. by left.
  - apply IH.
Qed.

Lemma dependencies_of_refines rec1 rec2 type_names sel :
  (forall n s, mrefines (rec1 n s) (rec2 n s)) ->
  mrefines (dependencies_of rec1 type_names sel)
           (dependencies_of rec2 type_names sel).
Proof.
  intros Hrec. induction type_names as [|n type_names IH]; simpl;
    [apply mrefines_refl|].
  apply mrefines_bind; [apply Hrec|]. intros d.
  apply mrefines_bind; [exact IH|]. intros ds. apply mrefines_refl.
Qed.

Lemma field_dependencies_refines rec1 rec2 type_names sel :
  (forall n s, mrefines (rec1 n s) (rec2 n s)) ->
  mrefines (field_dependencies rec1 type_names sel)
           (field_dependencies rec2 type_names sel).
Proof.
  intros Hrec. destruct sel; simpl;
    [by apply dependencies_of_refines | apply mrefines_refl].
Qed.

Lemma dependency_fields_refines rec1 rec2 type_name lineno fs :
  (forall n s, mrefines (rec1 n s) (rec2 n s)) ->
  mrefines
    (dependency_fields fields class_types query_name rec1 type_name lineno fs)
    (dependency_fields fields class_types query_name rec2 type_name lineno fs).
Proof.
  intros Hrec. revert lineno.
  induction fs as [|[name sel] rest IH]; intros lineno; simpl;
    [apply mrefines_refl|].
  apply mrefines_bind; [apply mrefines_refl|]. intros [target a value l0|? ?];
    [|apply mrefines_refl].
  apply mrefines_bind; [apply mrefines_refl|]. intros a'.
  apply mrefines_bind; [by apply field_dependencies_refines|]. intros deps.
  apply mrefines_bind; [apply IH|]. intros r. apply mrefines_refl.
Qed.

Lemma query_fields_refines rec1 rec2 lineno fs :
  (forall n s, mrefines (rec1 n s) (rec2 n s)) ->
  mrefines
    (query_fields parse_field_type schema class_types operation query_name
                  rec1 lineno fs)
    (query_fields parse_field_type schema class_types operation query_name
                  rec2 lineno fs).
Proof.
  intros Hrec. revert lineno.
  induction fs as [|[name sel] rest IH]; intros lineno; simpl;
    [apply mrefines_refl|].
  apply mrefines_bind; [apply mrefines_refl|]. intros t.
  apply mrefines_bind; [apply mrefines_refl|]. intros a'.
  apply mrefines_bind; [by apply field_dependencies_refines|]. intros deps.
  apply mrefines_bind; [apply IH|]. intros r. apply mrefines_refl.
Qed.

Lemma generate_dependency_type_class_fuel fuel type_name sel :
  mrefines
    (_generate_dependency_type_class fields class_types query_name
       fragments_definitions fuel type_name sel)
    (_generate_dependency_type_class fields class_types query_name
       fragments_definitions (S fuel) type_name sel).
Proof.
  revert type_name sel.
  induction fuel as [|fuel IH]; intros type_name sel st.
  - simpl. case_bool_decide; [by right | by left].
  - change (refines
      (if bool_decide ((query_name +:+ type_name) ∈ public_names st)
       then Ok (None, st)
       else bind (register_name (query_name +:+ type_name)) (fun _ =>
            bind (_resolve_selection_set fragments_definitions fuel sel
                    type_name) (fun fs =>
            bind (dependency_fields fields class_types query_name
                    (_generate_dependency_type_class fields class_types
                       query_name fragments_definitions fuel)
                    type_name 1 fs) (fun r =>
            ret (Some ([with_body
                          (generate_class_def (query_name +:+ type_name)
                                              ["BaseModel"]) (fst r)]
                       ++ snd r))))) st)
      (if bool_decide ((query_name +:+ type_name) ∈ public_names st)
       then Ok (None, st)
       else bind (register_name (query_name +:+ type_name)) (fun _ =>
            bind (_resolve_selection_set fragments_definitions (S fuel) sel
                    type_name) (fun fs =>
            bind (dependency_fields fields class_types query_name
                    (_generate_dependency_type_class fields class_types
                       query_name fragments_definitions (S fuel))
                    type_name 1 fs) (fun r =>
            ret (Some ([with_body
                          (generate_class_def (query_name +:+ type_name)
                                              ["BaseModel"]) (fst r)]
                       ++ snd r))))) st)).
    case_bool_decide; [by right|].
    apply mrefines_bind; [apply mrefines_refl|]. intros _.
    apply mrefines_bind; [apply resolve_selection_set_fuel|]. intros fs.
    apply mrefines_bind; [|intros r; apply mrefines_refl].
    apply dependency_fields_refines. exact IH.
Qed.

Lemma parse_query_fuel fuel sel :
  mrefines
    (_parse_query parse_field_type schema fields class_types operation
                  query_name fragments_definitions fuel sel)
    (_parse_query parse_field_type schema fields class_types operation
                  query_name fragments_definitions (S fuel) sel).
Proof.
  unfold _parse_query.
  apply mrefines_bind; [apply mrefines_refl|]. intros _.
  apply mrefines_bind; [apply resolve_selection_set_fuel|]. intros fs.
  apply mrefines_bind; [|intros r; apply mrefines_refl].
  apply query_fields_refines. apply generate_dependency_type_class_fuel.
Qed.

End fuel_facts.

(** A generator built, or an exception raised, with some fuel is built, or
    raised, with any larger fuel. *)
Lemma init_fuel {GraphQLType : Type} fuel extra
  (parse_field_type : GraphQLType -> expr) schema fields class_types query
  enums_module_name fragments_definitions base_model_import :
  refines
    (__init__ fuel parse_field_type schema fields class_types query
              enums_module_name fragments_definitions base_model_import)
    (__init__ (extra + fuel) parse_field_type schema fields class_types query
              enums_module_name fragments_definitions base_model_import).
Proof.
  induction extra as [|extra IH]; [by right|].
  eapply refines_trans; [exact IH|]. simpl. unfold __init__.
  destruct (od_name query) as [qn|]; [|by right].
  destruct (parse_query_fuel parse_field_type schema fields class_types
              (od_operation query) qn (default ∅ fragments_definitions)
              (extra + fuel) (od_selection_set query) (mkState [] [] ∅))
    as [-> | <-]; [by left | by right].
Qed.

(** ** The emitted module *)

Lemma generate_body {GraphQLType : Type} fuel
  (parse_field_type : GraphQLType -> expr) schema fields class_types query
  enums_module_name fragments_definitions base_model_import g :
  __init__ fuel parse_field_type schema fields class_types query
           enums_module_name fragments_definitions base_model_import = Ok g ->
  body (fst (generate g)) =
  map Import (initial_imports base_model_import ++ enum_import g)
  ++ map ClassDefStmt (g_class_defs g)
  ++ map finalization (g_class_defs g).
Proof.
  intros (qn & cds & st' & _ & _ & ->)%init_inv.
  unfold generate, enum_import. cbn [fst body g_used_enums g_imports
    g_class_defs g_enums_module_name].
  destruct (used_enums st'); [by rewrite app_nil_r|].
  by rewrite map_app.
Qed.

(** ** The resolver against the flattening of the spec *)

(** Equalities of sets of names made of unions. *)
Ltac same_names :=
  apply set_eq; intros ?; rewrite ?elem_of_union, ?elem_of_empty; tauto.

Lemma with_fragments_empty st : with_fragments ∅ st = st.
Proof.
  destruct st as [p e u]. unfold with_fragments. simpl. f_equal.
  same_names.
Qed.

Lemma with_fragments_union u1 u2 st :
  with_fragments u2 (with_fragments u1 st) = with_fragments (u1 ∪ u2) st.
Proof.
  unfold with_fragments. simpl. f_equal. same_names.
Qed.

Section flattening_facts.
Variable fragments_definitions : gmap string FragmentDefinitionNode.
Variable root_type : string.

Local Abbreviation flattens := (flattens fragments_definitions root_type).
Local Abbreviation resolve fuel l :=
  (_resolve_selection_set fragments_definitions fuel l root_type).

Lemma resolve_app fuel l1 l2 st :
  resolve fuel (l1 ++ l2) st =
  obind (resolve fuel l1 st) (fun r1 =>
  obind (resolve fuel l2 (snd r1)) (fun r2 =>
  Ok (fst r1 ++ fst r2, snd r2))).
Proof. rewrite !resolve_unfold. apply extend_each_app. Qed.

Lemma resolve_field fuel name sel rest st :
  resolve fuel (FieldNode name sel :: rest) st =
  obind (resolve fuel rest st) (fun r => Ok ((name, sel) :: fst r, snd r)).
Proof. rewrite !resolve_unfold, extend_each_cons. reflexivity. Qed.

Lemma flattens_app l1 f1 u1 l2 f2 u2 :
  flattens l1 f1 u1 -> flattens l2 f2 u2 ->
  flattens (l1 ++ l2) (f1 ++ f2) (u1 ∪ u2).
Proof.
  intros H1 H2. induction H1; simpl.
  - replace (∅ ∪ u2) with u2
      by same_names.
    exact H2.
  - by constructor.
  - rewrite <- app_assoc.
    replace ({[name]} ∪ ufrag ∪ used ∪ u2)
      with ({[name]} ∪ ufrag ∪ (used ∪ u2))
      by same_names.
    econstructor; eauto.
  - rewrite <- app_assoc.
    replace (usel ∪ used ∪ u2) with (usel ∪ (used ∪ u2))
      by same_names.
    by constructor.
  - by constructor.
Qed.

(** The resolver computes the flattening: with enough fuel it returns the
    fields, and adds the names of the fragments to the used ones. *)
Lemma flattens_resolve l fs used :
  flattens l fs used ->
  exists fuel0, forall fuel st, fuel0 <= fuel ->
    resolve fuel l st = Ok (fs, with_fragments used st).
Proof.
  induction 1 as [| name sel rest fs used _ [f0 IH]
                  | name d rest ffrag ufrag fs used Hd _ [f1 IH1] _ [f2 IH2]
                  | sel rest fsel usel fs used _ [f1 IH1] _ [f2 IH2]
                  | cond sel rest fs used Hcond _ [f0 IH]].
  - exists 0. intros fuel st _. rewrite resolve_unfold. simpl.
    by rewrite with_fragments_empty.
  - exists f0. intros fuel st Hle. rewrite resolve_field, (IH _ _ Hle).
    reflexivity.
  - exists (S (f1 `max` f2)). intros fuel st Hle.
    destruct fuel as [|fuel]; [lia|].
    rewrite (resolve_spread _ fuel [] name rest root_type st).
    rewrite resolve_unfold. cbn [extend_each ret obind fst snd app].
    rewrite Hd, IH1 by lia. cbn [obind fst snd].
    rewrite IH2 by lia. cbn [obind fst snd]. do 2 f_equal.
    unfold with_fragments. simpl. f_equal. same_names.
  - exists (f1 `max` f2). intros fuel st Hle.
    rewrite (resolve_inline_fragment _ fuel [] root_type sel rest root_type st).
    rewrite String.eqb_refl. simpl. rewrite resolve_app.
    rewrite IH1 by lia. cbn [obind fst snd].
    rewrite IH2 by lia. cbn [obind fst snd].
    by rewrite with_fragments_union.
  - exists f0. intros fuel st Hle.
    rewrite (resolve_inline_fragment _ fuel [] cond sel rest root_type st).
    apply String.eqb_neq in Hcond. rewrite Hcond. simpl. by apply IH.
Qed.

Lemma flattens_single_app x rest f1 u1 f2 u2 :
  flattens [x] f1 u1 -> flattens rest f2 u2 ->
  flattens (x :: rest) (f1 ++ f2) (u1 ∪ u2).
Proof. apply (flattens_app [x]). Qed.

Lemma extend_each_flattens (f : selection -> M (list field_node)) l :
  Forall (fun x => forall st fs st', f x st = Ok (fs, st') ->
            exists used, flattens [x] fs used /\
                         st' = with_fragments used st) l ->
  forall st fs st', extend_each f l st = Ok (fs, st') ->
    exists used, flattens l fs used /\ st' = with_fragments used st.
Proof.
  induction 1 as [|x l Hx _ IH]; intros st fs st'.
  - intros [= <- <-]. exists ∅. split; [constructor|].
    by rewrite with_fragments_empty.
  - rewrite extend_each_cons. intros H.
    obind_inv H. destruct a as [f1 s1]. cbn [fst snd] in H.
    obind_inv H. destruct a as [f2 s2]. cbn [fst snd] in H.
    injection H as <- <-.
    apply Hx in E as (u1 & H1 & ->). apply IH in E0 as (u2 & H2 & ->).
    exists (u1 ∪ u2). split; [by apply flattens_single_app|].
    by rewrite with_fragments_union.
Qed.

Lemma resolve_selection_flattens rec :
  (forall l st fs st', rec l root_type st = Ok (fs, st') ->
     exists used, flattens l fs used /\ st' = with_fragments used st) ->
  forall x st fs st',
    resolve_selection fragments_definitions rec root_type x st
      = Ok (fs, st') ->
    exists used, flattens [x] fs used /\ st' = with_fragments used st.
Proof.
  intros Hrec x.
  induction x as [name sel | name | cond sel IH] using selection_nested_ind;
    intros st fs st'; simpl.
  - intros [= <- <-]. exists ∅. split; [repeat constructor|].
    by rewrite with_fragments_empty.
  - unfold bind; simpl.
    destruct (fragments_definitions !! name) as [d|] eqn:Hd; [|discriminate].
    intros (u & Hu & ->)%Hrec. exists ({[name]} ∪ u ∪ ∅). split.
    + rewrite <- (app_nil_r fs). econstructor; eauto. constructor.
    + unfold with_fragments. simpl. f_equal. same_names.
  - destruct cond as [cond|]; [|discriminate].
    destruct (String.eqb cond root_type) eqn:Hc.
    + apply String.eqb_eq in Hc as ->.
      intros (u & Hu & ->)%(extend_each_flattens _ _ IH).
      exists (u ∪ ∅). split.
      * rewrite <- (app_nil_r fs). constructor; [exact Hu | constructor].
      * f_equal. same_names.
    + apply String.eqb_neq in Hc. intros [= <- <-]. exists ∅. split.
      * constructor; [exact Hc | constructor].
      * by rewrite with_fragments_empty.
Qed.

(** What the resolver returns is the flattening. *)
Lemma resolve_flattens fuel l st fs st' :
  resolve fuel l st = Ok (fs, st') ->
  exists used, flattens l fs used /\ st' = with_fragments used st.
Proof.
  revert l st fs st'. induction fuel as [|fuel IH]; intros l st fs st';
    rewrite resolve_unfold; apply extend_each_flattens, Forall_forall;
    intros x _; apply resolve_selection_flattens; simpl; [discriminate|].
  intros l0 st0 fs0 st0'. apply IH.
Qed.

End flattening_facts.

(** ** The synthesizer against the synthesis of the spec *)

Lemma dependency_fields_loop fields class_types query_name rec type_name
  lineno fs st :
  dependency_fields fields class_types query_name rec type_name lineno fs st
  = fields_loop (nested_lookup fields type_name) class_types query_name rec
                lineno fs st.
Proof.
  revert lineno st. induction fs as [|[name sel] rest IH]; intros lineno st;
    [reflexivity|].
  simpl. unfold bind, lift, nested_lookup.
  destruct (_get_schema_field_definition fields type_name name)
    as [[target a value l0 | ? ?] | |]; cbn [obind fst snd]; try reflexivity.
  destruct (_procces_annotation _ _ _ _ st) as [[a' s1]| |];
    cbn [obind fst snd]; try reflexivity.
  destruct (field_dependencies _ _ _ s1) as [[d s2]| |];
    cbn [obind fst snd]; try reflexivity.
  by rewrite IH.
Qed.

Lemma query_fields_loop {GraphQLType : Type}
  (parse_field_type : GraphQLType -> expr) schema class_types operation
  query_name rec lineno fs st :
  query_fields parse_field_type schema class_types operation query_name rec
               lineno fs st
  = fields_loop (root_lookup parse_field_type schema operation) class_types
                query_name rec lineno fs st.
Proof.
  revert lineno st. induction fs as [|[name sel] rest IH]; intros lineno st;
    [reflexivity|].
  simpl. unfold bind, lift, root_lookup.
  destruct (_get_field_type_from_schema schema operation name)
    as [t | |]; cbn [obind fst snd]; try reflexivity.
  destruct (_procces_annotation _ _ _ _ st) as [[a' s1]| |];
    cbn [obind fst snd]; try reflexivity.
  destruct (field_dependencies _ _ _ s1) as [[d s2]| |];
    cbn [obind fst snd]; try reflexivity.
  by rewrite IH.
Qed.

Lemma after_nothing class_types st : after class_types [] [] ∅ st = st.
Proof.
  destruct st as [p e u]. unfold after. simpl. rewrite !app_nil_r.
  f_equal. same_names.
Qed.

Lemma after_after class_types ds1 es1 u1 ds2 es2 u2 st :
  after class_types ds2 es2 u2 (after class_types ds1 es1 u1 st)
  = after class_types (ds1 ++ ds2) (es1 ++ es2) (u1 ∪ u2) st.
Proof.
  unfold after. simpl. rewrite map_app, flat_map_app, <- !app_assoc.
  f_equal. same_names.
Qed.

(** [_procces_annotation] gives the expression [rewritten] describes and
    records the names [expression_enums] lists. *)
Lemma procces_annotation_spec class_types query_name a st :
  _procces_annotation class_types query_name a (_walk_annotation a) st =
  match rewritten class_types query_name a with
  | Some a' => Ok (a', after class_types [] [a] ∅ st)
  | None => Err ParsingError
  end.
Proof.
  unfold _procces_annotation, rewritten, after, expression_enums.
  cbn [flat_map map]. rewrite !app_nil_r.
  destruct (existsb _ _).
  - unfold lift. rewrite add_prefix_spec.
    destruct (all_leaves_quoted a); [|reflexivity].
    simpl. rewrite app_nil_r. do 2 f_equal. destruct st. simpl. f_equal.
    same_names.
  - destruct (record_enums_frame class_types (_walk_annotation a) st)
      as (Hp & Hu & He).
    do 2 f_equal.
    destruct (fold_left _ _ st) as [p e u]. simpl in *. subst. f_equal.
    same_names.
Qed.

Section synthesis_facts.
Variable fields : gmap string (gmap string field_definition).
Variable class_types : gmap string ClassType.
Variable query_name : string.
Variable fragments_definitions : gmap string FragmentDefinitionNode.

Local Abbreviation synth :=
  (_generate_dependency_type_class fields class_types query_name
     fragments_definitions).
Local Abbreviation synthesizes :=
  (synthesizes fields class_types query_name fragments_definitions).
Local Abbreviation class_fields :=
  (class_fields fields class_types query_name fragments_definitions).
Local Abbreviation type_dependencies :=
  (type_dependencies fields class_types query_name fragments_definitions).
Local Abbreviation after := (after class_types).
Local Abbreviation synth_exact :=
  (synth_exact fields class_types query_name fragments_definitions).
Local Abbreviation loop lookup := (fields_loop lookup class_types query_name).

Lemma synth_unfold fuel type_name sel st :
  synth (S fuel) type_name sel st =
  if bool_decide ((query_name +:+ type_name) ∈ public_names st)
  then Ok (None, st)
  else
    obind (_resolve_selection_set fragments_definitions fuel sel type_name
             (mkState (public_names st ++ [query_name +:+ type_name])
                      (used_enums st) (used_fragments_names st)))
      (fun r1 =>
         obind (loop (nested_lookup fields type_name) (synth fuel) 1
                     (fst r1) (snd r1))
           (fun r2 =>
              Ok (Some (mkClassDef (query_name +:+ type_name) ["BaseModel"]
                          (fst (fst r2)) :: snd (fst r2)),
                  snd r2))).
Proof.
  simpl. case_bool_decide; [reflexivity|].
  unfold bind. cbn [register_name obind fst snd].
  destruct (_resolve_selection_set _ _ _ _ _) as [[fs s1]| |];
    cbn [obind fst snd]; try reflexivity.
  rewrite dependency_fields_loop.
  destruct (fields_loop _ _ _ _ _ _ _) as [[r s2]| |]; reflexivity.
Qed.

Lemma synth_registered fuel type_name sel st :
  (query_name +:+ type_name) ∈ public_names st ->
  synth fuel type_name sel st = Ok (None, st).
Proof. intros H. destruct fuel; simpl; by rewrite bool_decide_eq_true_2. Qed.

Lemma loop_cons lookup rec lineno name sel rest st :
  loop lookup rec lineno ((name, sel) :: rest) st =
  obind (lookup name) (fun parts =>
  obind (_procces_annotation class_types query_name (snd (fst parts))
           (_walk_annotation (snd (fst parts))) st) (fun r1 =>
  obind (field_dependencies rec (_walk_annotation (snd (fst parts))) sel
           (snd r1)) (fun r2 =>
  obind (loop lookup rec (S lineno) rest (snd r2)) (fun r3 =>
  Ok ((AnnAssign (fst (fst parts)) (fst r1) (snd parts) lineno
         :: fst (fst r3),
       fst r2 ++ snd (fst r3)), snd r3))))).
Proof.
  simpl. unfold bind, lift.
  destruct (lookup name) as [parts| |]; cbn [obind fst snd]; reflexivity.
Qed.

Lemma dependencies_cons rec type_name type_names sel st :
  field_dependencies rec (type_name :: type_names) (Some sel) st =
  obind (rec type_name sel st) (fun r1 =>
  obind (field_dependencies rec type_names (Some sel) (snd r1)) (fun r2 =>
  Ok (default [] (fst r1) ++ fst r2, snd r2))).
Proof. reflexivity. Qed.

Lemma result_of_default ds : default [] (result_of ds) = ds.
Proof. by destruct ds. Qed.

(** With enough fuel the synthesizer returns the definitions of the
    synthesis, and leaves the state the synthesis describes. *)
Lemma synthesis_complete :
  (forall R type_name sel ds es used,
     synthesizes R type_name sel ds es used ->
     exists fuel0, forall fuel st, fuel0 <= fuel -> public_names st = R ->
       synth fuel type_name sel st = Ok (result_of ds, after ds es used st))
  /\
  (forall R lookup lineno fs body ds es used,
     class_fields R lookup lineno fs body ds es used ->
     exists fuel0, forall fuel st, fuel0 <= fuel -> public_names st = R ->
       loop lookup (synth fuel) lineno fs st
       = Ok ((body, ds), after ds es used st))
  /\
  (forall R type_names sel ds es used,
     type_dependencies R type_names sel ds es used ->
     exists fuel0, forall fuel st, fuel0 <= fuel -> public_names st = R ->
       field_dependencies (synth fuel) type_names sel st
       = Ok (ds, after ds es used st)).
Proof.
  apply synthesis_mutind.
  - intros R type_name sel Hin. exists 0. intros fuel st _ <-.
    rewrite synth_registered by done. by rewrite after_nothing.
  - intros R type_name sel fs used body ds es used' Hin Hfs _ [f2 IH].
    destruct (flattens_resolve _ _ _ _ _ Hfs) as [f1 Hres].
    exists (S (f1 `max` f2)). intros fuel st Hle <-.
    destruct fuel as [|fuel]; [lia|].
    rewrite synth_unfold, bool_decide_eq_false_2 by done.
    rewrite Hres by lia. cbn [obind fst snd].
    rewrite IH by (simpl; (lia || reflexivity)). cbn [obind fst snd].
    f_equal. f_equal. unfold after, with_fragments. simpl.
    rewrite <- !app_assoc. f_equal. same_names.
  - intros R lookup lineno. exists 0. intros fuel st _ _.
    simpl. by rewrite after_nothing.
  - intros R lookup lineno name sel rest target a value a' ds1 es1 used1
      body ds2 es2 used2 Hlook Hrew _ [f1 IH1] _ [f2 IH2].
    exists (f1 `max` f2). intros fuel st Hle <-.
    rewrite loop_cons, Hlook. cbn [obind fst snd].
    rewrite procces_annotation_spec, Hrew. cbn [obind fst snd].
    rewrite IH1 by (simpl; (lia || by rewrite app_nil_r)).
    cbn [obind fst snd].
    rewrite IH2
      by (simpl; (lia || by rewrite app_nil_r)).
    cbn [obind fst snd]. f_equal. f_equal.
    rewrite !after_after. simpl. f_equal. same_names.
  - intros R type_names. exists 0. intros fuel st _ _.
    simpl. by rewrite after_nothing.
  - intros R sel. exists 0. intros fuel st _ _.
    simpl. by rewrite after_nothing.
  - intros R type_name type_names sel ds1 es1 used1 ds2 es2 used2
      _ [f1 IH1] _ [f2 IH2].
    exists (f1 `max` f2). intros fuel st Hle <-.
    rewrite dependencies_cons, IH1 by (lia || reflexivity).
    cbn [obind fst snd]. rewrite IH2 by (simpl; (lia || reflexivity)).
    cbn [obind fst snd]. by rewrite result_of_default, after_after.
Qed.


Lemma field_dependencies_exact rec :
  synth_exact rec ->
  forall type_names sel st ds st',
    field_dependencies rec type_names sel st = Ok (ds, st') ->
    exists es used,
      type_dependencies (public_names st) type_names sel ds es used /\
      st' = after ds es used st.
Proof.
  intros Hrec type_names [sel|]; [|intros st ds st' [= <- <-]].
  2: { exists [], ∅. split; [constructor | by rewrite after_nothing]. }
  induction type_names as [|n type_names IH]; intros st ds st'.
  - intros [= <- <-]. exists [], ∅.
    split; [constructor | by rewrite after_nothing].
  - rewrite dependencies_cons. intros H.
    obind_inv H. destruct a as [r s1]. cbn [fst snd] in H.
    obind_inv H. destruct a as [more s2]. cbn [fst snd] in H.
    injection H as <- <-.
    apply Hrec in E as (ds1 & es1 & u1 & H1 & -> & ->).
    apply IH in E0 as (es2 & u2 & H2 & ->).
    exists (es1 ++ es2), (u1 ∪ u2). rewrite result_of_default, after_after.
    split; [|reflexivity]. by constructor.
Qed.

Lemma loop_exact rec lookup :
  synth_exact rec ->
  forall fs lineno st r st',
    loop lookup rec lineno fs st = Ok (r, st') ->
    exists es used,
      class_fields (public_names st) lookup lineno fs (fst r) (snd r)
                   es used /\
      st' = after (snd r) es used st.
Proof.
  intros Hrec fs.
  induction fs as [|[name sel] rest IH]; intros lineno st r st'.
  - intros [= <- <-]. exists [], ∅.
    split; [constructor | by rewrite after_nothing].
  - rewrite loop_cons. intros H.
    obind_inv H. destruct a as [[target a] value]. cbn [fst snd] in H.
    rewrite procces_annotation_spec in H.
    destruct (rewritten class_types query_name a) as [a'|] eqn:Hrew;
      [|discriminate H].
    cbn [obind fst snd] in H.
    obind_inv H. destruct a0 as [deps s2]. cbn [fst snd] in H.
    obind_inv H. destruct a0 as [r' s3]. cbn [fst snd] in H.
    injection H as <- <-. cbn [fst snd].
    apply (field_dependencies_exact _ Hrec) in E0 as (es1 & u1 & H1 & ->).
    apply IH in E1 as (es2 & u2 & H2 & ->).
    simpl in H1, H2. rewrite app_nil_r in H1, H2.
    exists (a :: es1 ++ es2), (u1 ∪ u2). split.
    + econstructor; eauto.
    + rewrite !after_after. simpl. f_equal. same_names.
Qed.

Lemma synth_synthesizes fuel : synth_exact (synth fuel).
Proof.
  induction fuel as [|fuel IH]; intros type_name sel st r st'.
  - simpl. case_bool_decide as Hin; [|discriminate].
    intros [= <- <-]. exists [], [], ∅.
    split; [by constructor|]. by rewrite after_nothing.
  - rewrite synth_unfold. case_bool_decide as Hin.
    + intros [= <- <-]. exists [], [], ∅.
      split; [by constructor|]. by rewrite after_nothing.
    + intros H.
      obind_inv H. destruct a as [fs s1]. cbn [fst snd] in H.
      obind_inv H. destruct a as [r' s2]. cbn [fst snd] in H.
      injection H as <- <-.
      apply resolve_flattens in E as (u & Hu & ->).
      apply (loop_exact _ _ IH) in E0 as (es & u' & Hf & ->).
      simpl in Hf.
      exists (mkClassDef (query_name +:+ type_name) ["BaseModel"] (fst r')
                :: snd r'), es, (u ∪ u').
      split; [by econstructor|]. split; [reflexivity|].
      unfold after, with_fragments. simpl. rewrite <- !app_assoc.
      f_equal. same_names.
Qed.

End synthesis_facts.

(** ** The construction of the generator against the generation *)

Section generation_facts.
Context {GraphQLType : Type}.
Variable parse_field_type : GraphQLType -> expr.
Variable schema : GraphQLSchema GraphQLType.
Variable fields : gmap string (gmap string field_definition).
Variable class_types : gmap string ClassType.
Variable query : OperationDefinitionNode.
Variable enums_module_name : string.
Variable fragments_definitions : option (gmap string FragmentDefinitionNode).
Variable base_model_import : option ImportFrom.

Local Abbreviation init fuel :=
  (__init__ fuel parse_field_type schema fields class_types query
            enums_module_name fragments_definitions base_model_import).
Local Abbreviation generation :=
  (generation parse_field_type schema fields class_types
              (default ∅ fragments_definitions) query).

Lemma init_unfold fuel query_name :
  od_name query = Some query_name ->
  init fuel =
  obind (_resolve_selection_set (default ∅ fragments_definitions) fuel
           (od_selection_set query) "" (mkState [query_name] [] ∅))
    (fun r1 =>
       obind (fields_loop
                (root_lookup parse_field_type schema (od_operation query))
                class_types query_name
                (_generate_dependency_type_class fields class_types
                   query_name (default ∅ fragments_definitions) fuel)
                1 (fst r1) (snd r1))
         (fun r2 =>
            Ok (mkGenerator query_name enums_module_name
                  (map Import (initial_imports base_model_import))
                  (public_names (snd r2))
                  (mkClassDef query_name ["BaseModel"] (fst (fst r2))
                     :: snd (fst r2))
                  (used_enums (snd r2))
                  (used_fragments_names (snd r2))))).
Proof.
  intros Hname. unfold __init__, _parse_query, bind. rewrite Hname.
  cbn [register_name obind fst snd public_names used_enums
       used_fragments_names app generate_class_def cd_name].
  destruct (_resolve_selection_set _ _ _ _ _) as [[fs s1]| |];
    cbn [obind fst snd]; try reflexivity.
  rewrite query_fields_loop.
  destruct (fields_loop _ _ _ _ _ _ _) as [[r s2]| |];
    cbn [obind fst snd]; try reflexivity.
  destruct base_model_import; reflexivity.
Qed.

(** With enough fuel the construction gives the generator of the
    generation. *)
Lemma generation_init query_name cds es used :
  generation query_name cds es used ->
  exists fuel0, forall fuel, fuel0 <= fuel ->
    init fuel = Ok (generator_of_generation class_types query_name
                      enums_module_name base_model_import cds es used).
Proof.
  intros [fs u body ds es' u' Hname Hfs Hcf].
  destruct (flattens_resolve _ _ _ _ _ Hfs) as [f1 Hres].
  destruct (synthesis_complete fields class_types query_name
              (default ∅ fragments_definitions)) as (_ & Hloop & _).
  destruct (Hloop _ _ _ _ _ _ _ _ Hcf) as [f2 Hrun].
  exists (f1 `max` f2). intros fuel Hle.
  rewrite (init_unfold _ _ Hname), Hres by lia. cbn [obind fst snd].
  rewrite Hrun by (simpl; (lia || reflexivity)). cbn [obind fst snd].
  unfold generator_of_generation, after, with_fragments. simpl.
  do 2 f_equal. same_names.
Qed.

(** A generator that was built is the generator of a generation. *)
Lemma init_generation fuel g :
  init fuel = Ok g ->
  exists query_name cds es used,
    generation query_name cds es used /\
    g = generator_of_generation class_types query_name enums_module_name
          base_model_import cds es used.
Proof.
  destruct (od_name query) as [query_name|] eqn:Hname;
    [|unfold __init__; by rewrite Hname].
  rewrite (init_unfold _ _ Hname). intros H.
  obind_inv H. destruct a as [fs s1]. cbn [fst snd] in H.
  obind_inv H. destruct a as [r s2]. cbn [fst snd] in H.
  injection H as <-.
  apply resolve_flattens in E as (u & Hu & ->).
  apply (loop_exact fields class_types query_name
           (default ∅ fragments_definitions) _ _
           (synth_synthesizes _ _ _ _ fuel)) in E0 as (es & u' & Hcf & ->).
  simpl in Hcf.
  exists query_name, (mkClassDef query_name ["BaseModel"] (fst r) :: snd r),
    es, (u ∪ u').
  split; [by econstructor|].
  unfold generator_of_generation, after, with_fragments. simpl.
  f_equal. same_names.
Qed.

End generation_facts.

(** ** Lookups that fail *)

Lemma root_lookup_undefined {GraphQLType : Type}
  (parse_field_type : GraphQLType -> expr) schema operation name :
  schema_root_field schema operation name = None ->
  root_lookup parse_field_type schema operation name = Err ParsingError.
Proof.
  intros H. unfold root_lookup.
  by rewrite get_field_type_from_schema_spec, H.
Qed.

Lemma nested_lookup_undefined fields type_name name :
  name <> "__typename" ->
  registry_field fields type_name name = None ->
  nested_lookup fields type_name name = Err KeyError.
Proof.
  intros Hname%String.eqb_neq H. unfold nested_lookup.
  by rewrite get_schema_field_definition_spec, Hname, H.
Qed.

Section failure_facts.
Variable fields : gmap string (gmap string field_definition).
Variable class_types : gmap string ClassType.
Variable query_name : string.
Variable fragments_definitions : gmap string FragmentDefinitionNode.

Local Abbreviation synth :=
  (_generate_dependency_type_class fields class_types query_name
     fragments_definitions).
Local Abbreviation loop lookup := (fields_loop lookup class_types query_name).

(** With enough fuel the synthesizer raises the exception of the lookup
    the synthesis fails at. *)
Lemma synthesis_fails_complete :
  (forall R type_name sel e,
     synthesis_fails fields class_types query_name fragments_definitions
                     R type_name sel e ->
     exists fuel0, forall fuel st, fuel0 <= fuel -> public_names st = R ->
       synth fuel type_name sel st = Err e)
  /\
  (forall R lookup fs e,
     fields_fail fields class_types query_name fragments_definitions
                 R lookup fs e ->
     exists fuel0, forall fuel lineno st,
       fuel0 <= fuel -> public_names st = R ->
       loop lookup (synth fuel) lineno fs st = Err e)
  /\
  (forall R type_names sel e,
     dependencies_fail fields class_types query_name fragments_definitions
                       R type_names sel e ->
     exists fuel0, forall fuel st, fuel0 <= fuel -> public_names st = R ->
       field_dependencies (synth fuel) type_names (Some sel) st = Err e).
Proof.
  destruct (synthesis_complete fields class_types query_name
              fragments_definitions) as (Hsynth & _ & Hdeps).
  apply synthesis_fails_mutind.
  - intros R type_name sel fs used e Hin Hfs _ [f2 IH].
    destruct (flattens_resolve _ _ _ _ _ Hfs) as [f1 Hres].
    exists (S (f1 `max` f2)). intros fuel st Hle <-.
    destruct fuel as [|fuel]; [lia|].
    rewrite synth_unfold, bool_decide_eq_false_2 by done.
    rewrite Hres by lia. cbn [obind fst snd].
    by rewrite IH by (simpl; (lia || reflexivity)).
  - intros R lookup name sel rest e Hlook. exists 0.
    intros fuel lineno st _ _. by rewrite loop_cons, Hlook.
  - intros R lookup name sel rest target a value a' e Hlook Hrew _ [f0 IH].
    exists f0. intros fuel lineno st Hle <-.
    rewrite loop_cons, Hlook. cbn [obind fst snd].
    rewrite procces_annotation_spec, Hrew. cbn [obind fst snd].
    by rewrite IH by (simpl; (lia || by rewrite app_nil_r)).
  - intros R lookup name sel rest target a value a' ds es used e Hlook Hrew
      Hok _ [f2 IH].
    destruct (Hdeps _ _ _ _ _ _ Hok) as [f1 Hrun].
    exists (f1 `max` f2). intros fuel lineno st Hle <-.
    rewrite loop_cons, Hlook. cbn [obind fst snd].
    rewrite procces_annotation_spec, Hrew. cbn [obind fst snd].
    rewrite Hrun by (simpl; (lia || by rewrite app_nil_r)).
    cbn [obind fst snd].
    by rewrite IH by (simpl; (lia || by rewrite app_nil_r)).
  - intros R type_name type_names sel e _ [f0 IH].
    exists f0. intros fuel st Hle <-.
    by rewrite dependencies_cons, IH.
  - intros R type_name type_names sel ds es used e Hok _ [f2 IH].
    destruct (Hsynth _ _ _ _ _ _ Hok) as [f1 Hrun].
    exists (f1 `max` f2). intros fuel st Hle <-.
    rewrite dependencies_cons, Hrun by (lia || reflexivity).
    cbn [obind fst snd].
    by rewrite IH by (simpl; (lia || reflexivity)).
Qed.

End failure_facts.

(** With enough fuel the construction raises the exception of the lookup
    the generation fails at. *)
Lemma generation_fails_init {GraphQLType : Type}
  (parse_field_type : GraphQLType -> expr) schema fields class_types query
  enums_module_name fragments_definitions base_model_import query_name e :
  generation_fails parse_field_type schema fields class_types
    (default ∅ fragments_definitions) query query_name e ->
  exists fuel0, forall fuel, fuel0 <= fuel ->
    __init__ fuel parse_field_type schema fields class_types query
             enums_module_name fragments_definitions base_model_import
    = Err e.
Proof.
  intros [fs u e' Hname Hfs Hff].
  destruct (flattens_resolve _ _ _ _ _ Hfs) as [f1 Hres].
  destruct (synthesis_fails_complete fields class_types query_name
              (default ∅ fragments_definitions)) as (_ & Hloop & _).
  destruct (Hloop _ _ _ _ Hff) as [f2 Hrun].
  exists (f1 `max` f2). intros fuel Hle.
  rewrite (init_unfold _ _ _ _ _ _ _ _ _ _ Hname), Hres by lia.
  cbn [obind fst snd].
  by rewrite Hrun by (simpl; (lia || reflexivity)).
Qed.

(** ** The processed field expressions and the emitted fields *)

(** Every processed field expression gives one emitted field, whose
    expression is the one [rewritten] makes of it. *)
Lemma synthesis_annotations fields class_types query_name
  fragments_definitions :
  (forall R type_name sel ds es used,
     synthesizes fields class_types query_name fragments_definitions
                 R type_name sel ds es used ->
     Permutation (emitted_annotations ds)
                 (map (emitted_for class_types query_name) es))
  /\
  (forall R lookup lineno fs body ds es used,
     class_fields fields class_types query_name fragments_definitions
                  R lookup lineno fs body ds es used ->
     Permutation (annotations_of body ++ emitted_annotations ds)
                 (map (emitted_for class_types query_name) es))
  /\
  (forall R type_names sel ds es used,
     type_dependencies fields class_types query_name fragments_definitions
                       R type_names sel ds es used ->
     Permutation (emitted_annotations ds)
                 (map (emitted_for class_types query_name) es)).
Proof.
  apply synthesis_mutind; try (intros; simpl; constructor).
  - intros R type_name sel fs used body ds es used' _ _ _ IH. exact IH.
  - intros R lookup lineno name sel rest target a value a' ds1 es1 used1
      body ds2 es2 used2 _ Hrew _ IH1 _ IH2.
    unfold emitted_annotations in *. rewrite flat_map_app, map_cons, map_app.
    unfold emitted_for at 1. rewrite Hrew. simpl. constructor.
    rewrite Permutation_app_swap_app. by apply Permutation_app.
  - intros R type_name type_names sel ds1 es1 used1 ds2 es2 used2
      _ IH1 _ IH2.
    unfold emitted_annotations in *. rewrite flat_map_app, map_app.
    by apply Permutation_app.
Qed.

Lemma generation_annotations {GraphQLType : Type}
  (parse_field_type : GraphQLType -> expr) schema fields class_types
  fragments_definitions query query_name cds es used :
  generation parse_field_type schema fields class_types
             fragments_definitions query query_name cds es used ->
  Permutation (emitted_annotations cds)
              (map (emitted_for class_types query_name) es).
Proof.
  intros [fs u body ds es' u' _ _ Hcf].
  destruct (synthesis_annotations fields class_types query_name
              fragments_definitions) as (_ & H & _).
  exact (H _ _ _ _ _ _ _ _ Hcf).
Qed.

(** An inline fragment without a type condition: [AttributeError], once
    the selections before it are resolved. *)
Lemma resolve_inline_untyped fragments_definitions fuel pre sel post
  root_type st :
  _resolve_selection_set fragments_definitions fuel
    (pre ++ InlineFragmentNode None sel :: post) root_type st =
  obind (_resolve_selection_set fragments_definitions fuel pre root_type st)
        (fun _ => Err AttributeError).
Proof.
  rewrite !resolve_unfold, extend_each_app.
  destruct (extend_each _ pre st) as [[f1 s1]| |]; reflexivity.
Qed.

Lemma resolve_field_selections fragments_definitions fuel fs root_type st :
  _resolve_selection_set fragments_definitions fuel
    (map field_selection fs) root_type st = Ok (fs, st).
Proof.
  rewrite resolve_unfold. revert st.
  induction fs as [|[name sel] fs IH]; intros st; [reflexivity|].
  rewrite map_cons, extend_each_cons. cbn [resolve_selection field_selection
    fst snd ret obind]. rewrite IH. reflexivity.
Qed.

(** A generator is built with no fuel at which the construction raises an
    exception with more. *)
Lemma init_not_both {GraphQLType : Type} fuel fuel'
  (parse_field_type : GraphQLType -> expr) schema fields class_types query
  enums_module_name fragments_definitions base_model_import g e :
  __init__ fuel parse_field_type schema fields class_types query
           enums_module_name fragments_definitions base_model_import = Ok g ->
  fuel <= fuel' ->
  __init__ fuel' parse_field_type schema fields class_types query
           enums_module_name fragments_definitions base_model_import
  <> Err e.
Proof.
  intros Hok Hle.
  destruct (init_fuel fuel (fuel' - fuel) parse_field_type schema fields
              class_types query enums_module_name fragments_definitions
              base_model_import) as [H | H].
  - congruence.
  - replace (fuel' - fuel + fuel) with fuel' in H by lia. congruence.
Qed.

(** ** Derivations on concrete operations *)

Ltac name_in := apply list_elem_of_In; cbv; tauto.

Ltac name_out :=
  let H := fresh in
  intros H; apply list_elem_of_In in H; cbv in H; intuition discriminate.

Ltac evaluated :=
  lazymatch goal with
  | |- ?l = _ =>
      let v := eval vm_compute in l in
      transitivity v; [vm_compute; reflexivity | reflexivity]
  end.

Ltac derive :=
  simpl;
  lazymatch goal with
  | |- flattens _ _ [] _ _ => apply flattens_nil
  | |- flattens _ _ (FieldNode _ _ :: _) _ _ =>
      apply flattens_field; derive
  | |- flattens _ _ (FragmentSpreadNode _ :: _) _ _ =>
      eapply flattens_spread; [evaluated | derive | derive]
  | |- flattens _ ?root (InlineFragmentNode (Some ?root) _ :: _) _ _ =>
      eapply flattens_inline_matching; [derive | derive]
  | |- flattens _ _ (InlineFragmentNode (Some _) _ :: _) _ _ =>
      eapply flattens_inline_other; [discriminate | derive]
  | |- synthesizes _ _ _ _ _ _ _ _ _ _ =>
      first [ apply synthesizes_registered; name_in
            | eapply synthesizes_new; [name_out | derive | derive] ]
  | |- class_fields _ _ _ _ _ _ _ [] _ _ _ _ => apply class_fields_nil
  | |- class_fields _ _ _ _ _ _ _ (_ :: _) _ _ _ _ =>
      eapply class_fields_cons; [evaluated | evaluated | derive | derive]
  | |- type_dependencies _ _ _ _ _ _ None _ _ _ =>
      apply type_dependencies_leaf
  | |- type_dependencies _ _ _ _ _ [] (Some _) _ _ _ =>
      apply type_dependencies_nil
  | |- type_dependencies _ _ _ _ _ (_ :: _) (Some _) _ _ _ =>
      eapply type_dependencies_cons; [derive | derive]
  | |- generation _ _ _ _ _ _ _ _ _ _ =>
      eapply generation_of_fields; [reflexivity | derive | derive]
  end.

(** The same for a synthesis that fails at a lookup, which is the lookup
    of the field at hand or lies below it. *)
Ltac fails_here := eapply fields_fail_here; evaluated.

Ltac fails_below tac :=
  eapply fields_fail_below;
  [evaluated | evaluated
  | simpl; eapply dependencies_fail_first;
    eapply synthesis_fails_new; [name_out | derive | simpl; tac]].

(** * The claims *)

(** C1 (as amended).  For a field whose type expression contains a name
    classified OBJECT or INTERFACE, rewriting succeeds exactly when the
    expression is made of named types and optional, list and union wrappers
    with every named-type leaf forward-reference quoted; every leaf is then
    replaced by the quoted [query_name + originalName], the wrappers are
    unchanged, the names of the result are the original names with the
    operation name before them, and every leaf is still quoted.  When a
    leaf is not quoted, rewriting raises [ParsingError]. *)
Theorem prefix_rewriting class_types query_name a st :
  existsb (is_object_or_interface class_types) (_walk_annotation a) = true ->
  _procces_annotation class_types query_name a (_walk_annotation a) st =
    (if all_leaves_quoted a
     then Ok (prefix_leaves query_name a, st) else Err ParsingError) /\
  _walk_annotation (prefix_leaves query_name a) =
    map (fun n => remove_quotes query_name +:+ n) (_walk_annotation a) /\
  implb (all_leaves_quoted a)
        (all_leaves_quoted (prefix_leaves query_name a)) = true.
Proof.
  intros Hobj. split; [|split].
  - unfold _procces_annotation. rewrite Hobj. unfold lift.
    rewrite add_prefix_spec. by destruct (all_leaves_quoted a).
  - apply walk_prefix_leaves.
  - apply prefix_leaves_quoted.
Qed.

Lemma prefix_rewriting_witness :
  existsb (is_object_or_interface Sample.class_types)
    (_walk_annotation (Sample.optional (Name (Sample.quoted "User")))) = true
  /\ _procces_annotation Sample.class_types "GetUser"
       (Sample.optional (Name (Sample.quoted "User")))
       (_walk_annotation (Sample.optional (Name (Sample.quoted "User"))))
       Sample.empty_state =
     Ok (Sample.optional (Name (Sample.quoted "GetUserUser")),
         Sample.empty_state).
Proof.
  split; [vm_compute; reflexivity|].
  destruct (prefix_rewriting Sample.class_types "GetUser"
              (Sample.optional (Name (Sample.quoted "User")))
              Sample.empty_state) as [H _]; [vm_compute; reflexivity|].
  exact H.
Defined.

(** C1 fails as stated: [Optional[User]] with the leaf not quoted and [User]
    classified OBJECT is not rewritten; [ParsingError] is raised. *)
Lemma prefix_rewriting_unquoted_leaf :
  existsb (is_object_or_interface Sample.class_types)
    (_walk_annotation (Sample.optional (Name "User"))) = true /\
  _procces_annotation Sample.class_types "GetUser"
    (Sample.optional (Name "User"))
    (_walk_annotation (Sample.optional (Name "User")))
    Sample.empty_state = Err ParsingError.
Proof. split; vm_compute; reflexivity. Qed.

(** C2.  In one generation run no two emitted type definitions share a
    name: the names of [class_defs] are the registered names, in order of
    registration, without duplicates.  Invoking the dependency synthesizer
    for a type whose candidate name [query_name + type_name] is registered
    returns [None] and leaves the state as it is, so the caller's loop adds
    no definition. *)
Theorem emitted_names_unique {GraphQLType : Type} fuel
  (parse_field_type : GraphQLType -> expr) schema fields class_types query
  enums_module_name fragments_definitions base_model_import g
  fuel' type_name sel st :
  __init__ fuel parse_field_type schema fields class_types query
           enums_module_name fragments_definitions base_model_import = Ok g ->
  (g_query_name g +:+ type_name) ∈ public_names st ->
  NoDup (map cd_name (g_class_defs g)) /\
  g_public_names g = map cd_name (g_class_defs g) /\
  _generate_dependency_type_class fields class_types (g_query_name g)
    (default ∅ fragments_definitions) fuel' type_name sel st
    = Ok (None, st) /\
  field_dependencies
    (_generate_dependency_type_class fields class_types (g_query_name g)
       (default ∅ fragments_definitions) fuel')
    [type_name] (Some sel) st = Ok ([], st).
Proof.
  intros (qn & cds & st' & _ & Hrun & ->)%init_inv Hin.
  cbn [g_class_defs g_public_names g_query_name] in *.
  apply parse_query_sound in Hrun
    as (root & extra & fs & -> & Hroot & _ & _ & Hpub & Hnd).
  cbn [public_names app] in Hpub, Hnd.
  assert (Hreg : _generate_dependency_type_class fields class_types qn
            (default ∅ fragments_definitions) fuel' type_name sel st
          = Ok (None, st)).
  { destruct fuel'; simpl; by rewrite bool_decide_eq_true_2. }
  repeat split.
  - simpl. rewrite Hroot. apply Hnd, NoDup_singleton.
  - simpl. by rewrite Hroot.
  - exact Hreg.
  - simpl. unfold bind. by rewrite Hreg.
Qed.

Lemma emitted_names_unique_witness :
  Sample.run Sample.get_user = Ok Sample.get_user_generator /\
  ("GetUser" +:+ "User") ∈ g_public_names Sample.get_user_generator /\
  NoDup (map cd_name (g_class_defs Sample.get_user_generator)) /\
  _generate_dependency_type_class Sample.fields Sample.class_types "GetUser"
    Sample.fragments 3 "User" [FieldNode "id" None]
    (mkState (g_public_names Sample.get_user_generator) [] ∅)
  = Ok (None, mkState (g_public_names Sample.get_user_generator) [] ∅).
Proof.
  assert (Hrun : Sample.run Sample.get_user = Ok Sample.get_user_generator)
    by (vm_compute; reflexivity).
  assert (Hin : ("GetUser" +:+ "User")
                ∈ g_public_names Sample.get_user_generator)
    by (vm_compute; apply list_elem_of_In; simpl; tauto).
  split; [exact Hrun|]. split; [exact Hin|].
  destruct (emitted_names_unique 3 Sample.parse Sample.schema Sample.fields
              Sample.class_types Sample.get_user "enums"
              (Some Sample.fragments) None Sample.get_user_generator
              3 "User" [FieldNode "id" None]
              (mkState (g_public_names Sample.get_user_generator) [] ∅)
              Hrun Hin) as (Hnd & _ & Hnone & _).
  split; [exact Hnd | exact Hnone].
Defined.

(** C3 (the code at the failing input).  Under a nested type the field
    [__typename] gets the synthetic definition without any registry lookup,
    whatever the registry holds.  Directly under the operation root the
    same selection is looked up in the schema like any other field: when
    the schema's root type has no field of that name, [ParsingError] is
    raised, as for [query Kind { __typename }] on the sample schema. *)
Theorem typename_at_root_is_looked_up :
  (forall fields type_name,
     _get_schema_field_definition fields type_name "__typename"
     = Ok generate_typename_field_definition) /\
  (forall (schema : GraphQLSchema expr) class_types operation query_name rec
          lineno sel rest st,
     match schema_root_field schema operation "__typename" with
     | None =>
         query_fields Sample.parse schema class_types operation query_name
                      rec lineno (("__typename", sel) :: rest) st
         = Err ParsingError
     | Some _ => True
     end) /\
  Sample.run Sample.kind = Err ParsingError /\
  (exists g, Sample.run Sample.nested_kind = Ok g).
Proof.
  split; [reflexivity|]. split; [|split].
  - intros schema class_types operation query_name rec lineno sel rest st.
    destruct (schema_root_field schema operation "__typename") eqn:Hnone;
      [exact I|].
    apply (query_fields_undefined _ _ _ _ _ _ [] "__typename" sel rest
             lineno st Hnone).
  - vm_compute. reflexivity.
  - eexists. vm_compute. reflexivity.
Qed.

(** C4 (as amended).  For an operation that has a generation, a generator
    is built with enough fuel, and the names it recorded are the ENUM
    names of the field expressions the generation processed, in the order
    of processing: a field expression with an OBJECT or INTERFACE name
    gives none, and any other gives its ENUM names in order and is emitted
    as it is.  The processed expressions are those of the emitted fields
    (one each, rewritten or not).  The emitted module has an import of the
    enum module if and only if a name was recorded, and that import lists
    the recorded names as they were recorded: in order, once per
    recording, so that a name recorded several times is listed several
    times.  Every recorded name is classified ENUM.  Conversely every
    generator that is built is that of a generation. *)
Theorem enum_import_lists_recorded_names {GraphQLType : Type}
  (parse_field_type : GraphQLType -> expr) schema fields class_types query
  enums_module_name fragments_definitions base_model_import
  query_name cds es used :
  generation parse_field_type schema fields class_types
    (default ∅ fragments_definitions) query query_name cds es used ->
  Permutation (emitted_annotations cds)
              (map (emitted_for class_types query_name) es) /\
  Forall (fun a =>
            if existsb (is_object_or_interface class_types)
                       (_walk_annotation a)
            then expression_enums class_types a = []
            else emitted_for class_types query_name a = a /\
                 expression_enums class_types a
                 = List.filter (is_enum class_types) (_walk_annotation a))
         es /\
  (exists fuel0, forall fuel, fuel0 <= fuel ->
     exists g,
       __init__ fuel parse_field_type schema fields class_types query
                enums_module_name fragments_definitions base_model_import
       = Ok g /\
       g_class_defs g = cds /\
       g_used_enums g = flat_map (expression_enums class_types) es /\
       body (fst (generate g)) =
         map Import (initial_imports base_model_import ++ enum_import g)
         ++ map ClassDefStmt (g_class_defs g)
         ++ map finalization (g_class_defs g) /\
       match g_used_enums g with
       | [] => enum_import g = []
       | _ :: _ => enum_import g =
                   [mkImportFrom (g_used_enums g) enums_module_name 1]
       end /\
       Forall (fun n => is_enum class_types n = true) (g_used_enums g)) /\
  (forall fuel g,
     __init__ fuel parse_field_type schema fields class_types query
              enums_module_name fragments_definitions base_model_import
     = Ok g ->
     exists query_name' cds' es' used',
       generation parse_field_type schema fields class_types
         (default ∅ fragments_definitions) query query_name' cds' es' used' /\
       g_class_defs g = cds' /\
       g_used_enums g = flat_map (expression_enums class_types) es') /\
  (forall a st,
     _procces_annotation class_types query_name a (_walk_annotation a) st =
     match rewritten class_types query_name a with
     | Some a' =>
         Ok (a', mkState (public_names st)
                   (used_enums st ++ expression_enums class_types a)
                   (used_fragments_names st))
     | None => Err ParsingError
     end).
Proof.
  intros Hgen. split; [by eapply generation_annotations|].
  split; [|split; [|split]].
  - apply Forall_forall. intros a _.
    unfold expression_enums, emitted_for, rewritten.
    by destruct (existsb _ _).
  - destruct (generation_init parse_field_type schema fields class_types
                query enums_module_name fragments_definitions
                base_model_import _ _ _ _ Hgen) as [fuel0 Hrun].
    exists fuel0. intros fuel Hle. specialize (Hrun fuel Hle).
    eexists. split; [exact Hrun|].
    split; [reflexivity|]. split; [reflexivity|].
    split; [by eapply generate_body|].
    unfold enum_import, generator_of_generation.
    cbn [g_used_enums g_enums_module_name].
    split; [by destruct (flat_map _ es)|].
    apply Forall_flat_map, Forall_forall. intros a _.
    unfold expression_enums. destruct (existsb _ _); [constructor|].
    apply Forall_forall. intros n Hn%list_elem_of_In%filter_In. tauto.
  - intros fuel g (qn & cds' & es' & used' & Hgen' & ->)%init_generation.
    by exists qn, cds', es', used'.
  - intros a st. rewrite procces_annotation_spec.
    destruct (rewritten class_types query_name a); [|reflexivity].
    unfold after. simpl. rewrite !app_nil_r. do 3 f_equal. same_names.
Qed.

Lemma enum_import_lists_recorded_names_witness :
  exists fuel0, forall fuel, fuel0 <= fuel ->
    exists g,
      Sample.run_with fuel Sample.colors = Ok g /\
      g_used_enums g = ["Color"; "Color"] /\
      enum_import g = [mkImportFrom ["Color"; "Color"] "enums" 1].
Proof.
  assert (Hgen : exists cds es used,
    generation Sample.parse Sample.schema Sample.fields Sample.class_types
      (default ∅ (Some Sample.fragments)) Sample.colors "Colors"
      cds es used /\
    flat_map (expression_enums Sample.class_types) es = ["Color"; "Color"]).
  { eexists _, _, _. split; [derive | vm_compute; reflexivity]. }
  destruct Hgen as (cds & es & used & Hgen & Henums).
  destruct (enum_import_lists_recorded_names Sample.parse Sample.schema
              Sample.fields Sample.class_types Sample.colors "enums"
              (Some Sample.fragments) None "Colors" cds es used Hgen)
    as (_ & _ & [fuel0 H] & _).
  exists fuel0. intros fuel Hle.
  destruct (H fuel Hle) as (g & Hrun & _ & Hused & _ & Himport & _).
  exists g. split; [exact Hrun|].
  rewrite Henums in Hused. rewrite Hused in Himport.
  split; [exact Hused | exact Himport].
Defined.

(** C4 fails as stated: for [query Colors { color background }], both
    fields of the enum type [Color], the import of the enum module lists
    [Color] twice. *)
Lemma enum_import_repeats_names :
  (forall extra,
     Sample.run_with (extra + 3) Sample.colors
     = Ok Sample.colors_generator) /\
  Import (mkImportFrom ["Color"; "Color"] "enums" 1)
    ∈ body (fst (generate Sample.colors_generator)) /\
  ~ NoDup (g_used_enums Sample.colors_generator).
Proof.
  split; [|split].
  - intros extra.
    destruct (init_fuel 3 extra Sample.parse Sample.schema Sample.fields
                Sample.class_types Sample.colors "enums"
                (Some Sample.fragments) None) as [H | H].
    + vm_compute in H. discriminate H.
    + unfold Sample.run_with. rewrite <- H. vm_compute. reflexivity.
  - vm_compute. apply list_elem_of_In. simpl. tauto.
  - vm_compute. intros H. apply NoDup_cons in H as [Hin _].
    apply Hin. apply list_elem_of_In. simpl. tauto.
Qed.

(** C5.  During resolution against a root type, an inline fragment whose
    type condition is the root type is flattened in place, recursively:
    when the selections before it, its own selections and the selections
    after it flatten, the resolver returns, with enough fuel, the fields of
    the first, then the fields of the fragment, then the fields of the
    last.  An inline fragment with another type condition contributes
    nothing, whatever it selects: the resolver returns the fields before it
    followed by the fields after it.  In general, for any fuel and also for
    runs that fail, resolving with the fragment is resolving with its
    selections spliced in its place when the condition is the root type,
    and resolving without it otherwise; on field selections this reads
    [a ++ b ++ c] against [a ++ c]. *)
Theorem inline_fragment_filtering fragments_definitions pre sel post
  root_type fpre upre fsel usel fpost upost :
  flattens fragments_definitions root_type pre fpre upre ->
  flattens fragments_definitions root_type sel fsel usel ->
  flattens fragments_definitions root_type post fpost upost ->
  (exists fuel0, forall fuel st, fuel0 <= fuel ->
     _resolve_selection_set fragments_definitions fuel
       (pre ++ InlineFragmentNode (Some root_type) sel :: post) root_type st
     = Ok (fpre ++ fsel ++ fpost,
           with_fragments (upre ∪ (usel ∪ upost)) st) /\
     forall cond sel', cond <> root_type ->
       _resolve_selection_set fragments_definitions fuel
         (pre ++ InlineFragmentNode (Some cond) sel' :: post) root_type st
       = Ok (fpre ++ fpost, with_fragments (upre ∪ upost) st)) /\
  (forall fuel cond sel' st,
     _resolve_selection_set fragments_definitions fuel
       (pre ++ InlineFragmentNode (Some cond) sel' :: post) root_type st =
     if String.eqb cond root_type
     then _resolve_selection_set fragments_definitions fuel
            (pre ++ sel' ++ post) root_type st
     else _resolve_selection_set fragments_definitions fuel
            (pre ++ post) root_type st) /\
  (forall fuel cond a b c st,
     _resolve_selection_set fragments_definitions fuel
       (map field_selection a
        ++ InlineFragmentNode (Some cond) (map field_selection b)
           :: map field_selection c) root_type st
     = Ok (if String.eqb cond root_type then a ++ b ++ c else a ++ c, st)).
Proof.
  intros Hpre Hsel Hpost. split; [|split].
  - pose proof (flattens_app _ _ _ _ _ _ _ _ Hpre
                  (flattens_inline_matching _ _ _ _ _ _ _ _ Hsel Hpost))
      as Hin.
    pose proof (flattens_app _ _ _ _ _ _ _ _ Hpre Hpost) as Hout.
    destruct (flattens_resolve _ _ _ _ _ Hin) as [f1 H1].
    destruct (flattens_resolve _ _ _ _ _ Hout) as [f2 H2].
    exists (f1 `max` f2). intros fuel st Hle. split.
    + apply H1. lia.
    + intros cond sel' Hcond%String.eqb_neq.
      rewrite resolve_inline_fragment, Hcond. apply H2. lia.
  - intros fuel cond sel' st. apply resolve_inline_fragment.
  - intros fuel cond a b c st. rewrite resolve_inline_fragment.
    destruct (String.eqb cond root_type);
      rewrite <- ?map_app; apply resolve_field_selections.
Qed.

Lemma inline_fragment_filtering_witness :
  exists fuel0, forall fuel st, fuel0 <= fuel ->
    _resolve_selection_set Sample.fragments fuel
      ([FieldNode "id" None]
       ++ InlineFragmentNode (Some "User")
            [FieldNode "name" None; FragmentSpreadNode "AddrFields"]
          :: [FieldNode "address" None]) "User" st
    = Ok ([("id", None)] ++ [("name", None); ("city", None)]
          ++ [("address", None)],
          with_fragments (∅ ∪ ({[ "AddrFields" ]} ∪ ∅ ∪ ∅ ∪ ∅)) st) /\
    _resolve_selection_set Sample.fragments fuel
      ([FieldNode "id" None]
       ++ InlineFragmentNode (Some "Admin") [FragmentSpreadNode "Missing"]
          :: [FieldNode "address" None]) "User" st
    = Ok ([("id", None)] ++ [("address", None)],
          with_fragments (∅ ∪ ∅) st).
Proof.
  assert (Hfrag : Sample.fragments !! "AddrFields"
                  = Some (mkFragment "Address" [FieldNode "city" None]))
    by (vm_compute; reflexivity).
  destruct (inline_fragment_filtering Sample.fragments
              [FieldNode "id" None]
              [FieldNode "name" None; FragmentSpreadNode "AddrFields"]
              [FieldNode "address" None] "User"
              [("id", None)] ∅
              [("name", None); ("city", None)] ({[ "AddrFields" ]} ∪ ∅ ∪ ∅)
              [("address", None)] ∅)
    as ([fuel0 H] & _ & _).
  - repeat constructor.
  - constructor.
    apply (flattens_spread _ _ "AddrFields" _ [] [("city", None)] ∅ [] ∅
             Hfrag); repeat constructor.
  - repeat constructor.
  - exists fuel0. intros fuel st Hle. destruct (H fuel st Hle) as [H1 H2].
    split; [exact H1|]. apply H2. discriminate.
Defined.

(** C6.  For a selection set with a spread of a fragment that the fragment
    table holds: when the selections before the spread, the selection set
    of the fragment and the selections after the spread flatten, the
    resolver returns, with enough fuel, the fields of the first, then the
    fields of the fragment where the spread stands, then the fields of the
    last, and the name of the fragment is among the used fragment names of
    the state it leaves.  Conversely a resolution that returns has this
    shape. *)
Theorem fragment_spread_flattening fragments_definitions pre name d post
  root_type fpre upre ffrag ufrag fpost upost :
  fragments_definitions !! name = Some d ->
  flattens fragments_definitions root_type pre fpre upre ->
  flattens fragments_definitions root_type (fd_selection_set d) ffrag ufrag ->
  flattens fragments_definitions root_type post fpost upost ->
  (exists fuel0, forall fuel st, fuel0 <= fuel ->
     exists st',
       _resolve_selection_set fragments_definitions fuel
         (pre ++ FragmentSpreadNode name :: post) root_type st
       = Ok (fpre ++ ffrag ++ fpost, st') /\
       st' = with_fragments (upre ∪ ({[ name ]} ∪ ufrag ∪ upost)) st /\
       name ∈ used_fragments_names st') /\
  (forall fuel st fs st',
     _resolve_selection_set fragments_definitions fuel
       (pre ++ FragmentSpreadNode name :: post) root_type st
     = Ok (fs, st') ->
     exists fuel' fpre' s1 ffrag' s2 fpost',
       fuel = S fuel' /\
       _resolve_selection_set fragments_definitions fuel pre root_type st
         = Ok (fpre', s1) /\
       _resolve_selection_set fragments_definitions fuel'
         (fd_selection_set d) root_type
         (mkState (public_names s1) (used_enums s1)
                  ({[ name ]} ∪ used_fragments_names s1)) = Ok (ffrag', s2) /\
       _resolve_selection_set fragments_definitions fuel post root_type s2
         = Ok (fpost', st') /\
       fs = fpre' ++ ffrag' ++ fpost' /\
       name ∈ used_fragments_names st').
Proof.
  intros Hd Hpre Hfrag Hpost. split.
  - pose proof (flattens_app _ _ _ _ _ _ _ _ Hpre
                  (flattens_spread _ _ _ _ _ _ _ _ _ Hd Hfrag Hpost)) as Hall.
    destruct (flattens_resolve _ _ _ _ _ Hall) as [fuel0 H].
    exists fuel0. intros fuel st Hle. eexists. split; [by apply H|].
    split; [reflexivity|]. unfold with_fragments. simpl.
    rewrite !elem_of_union, elem_of_singleton. tauto.
  - intros fuel st fs st' H. destruct fuel as [|fuel].
    { by apply resolve_needs_fuel in H. }
    rewrite resolve_spread, Hd in H.
    obind_inv H. destruct a as [fpre' s1]. cbn [fst snd] in H.
    obind_inv H. destruct a as [ffrag' s2]. cbn [fst snd] in H.
    obind_inv H. destruct a as [fpost' s3]. cbn [fst snd] in H.
    injection H as <- <-.
    exists fuel, fpre', s1, ffrag', s2, fpost'.
    repeat split; try assumption; try reflexivity.
    apply resolve_selection_set_frame in E0 as (_ & _ & H0).
    apply resolve_selection_set_frame in E1 as (_ & _ & H1).
    cbn [used_fragments_names] in H0.
    apply H1, H0, elem_of_union. left. by apply elem_of_singleton.
Qed.

Lemma fragment_spread_flattening_witness :
  Sample.fragments !! "AddrFields"
  = Some (mkFragment "Address" [FieldNode "city" None]) /\
  exists fuel0, forall fuel st, fuel0 <= fuel ->
    exists st',
      _resolve_selection_set Sample.fragments fuel
        ([FieldNode "street" None]
         ++ FragmentSpreadNode "AddrFields" :: [FieldNode "zip" None])
        "Address" st
      = Ok ([("street", None)] ++ [("city", None)] ++ [("zip", None)], st') /\
      "AddrFields" ∈ used_fragments_names st'.
Proof.
  assert (Hfrag : Sample.fragments !! "AddrFields"
                  = Some (mkFragment "Address" [FieldNode "city" None]))
    by (vm_compute; reflexivity).
  split; [exact Hfrag|].
  destruct (fragment_spread_flattening Sample.fragments
              [FieldNode "street" None] "AddrFields" _
              [FieldNode "zip" None] "Address"
              [("street", None)] ∅ [("city", None)] ∅ [("zip", None)] ∅
              Hfrag) as ([fuel0 H] & _); try (repeat constructor).
  exists fuel0. intros fuel st Hle.
  destruct (H fuel st Hle) as (st' & Hrun & _ & Hin).
  exists st'. split; [exact Hrun | exact Hin].
Defined.

(** C7.  For an operation without a name the construction of the generator
    raises [NotSupported]: no generator exists, so no type definition is
    emitted. *)
Theorem unnamed_operation_rejected {GraphQLType : Type} fuel
  (parse_field_type : GraphQLType -> expr) schema fields class_types query
  enums_module_name fragments_definitions base_model_import :
  od_name query = None ->
  __init__ fuel parse_field_type schema fields class_types query
           enums_module_name fragments_definitions base_model_import
  = Err NotSupported.
Proof. intros H. unfold __init__. by rewrite H. Qed.

Lemma unnamed_operation_rejected_witness :
  od_name Sample.unnamed = None /\
  Sample.run Sample.unnamed = Err NotSupported.
Proof.
  split; [reflexivity|].
  apply (unnamed_operation_rejected 3 Sample.parse Sample.schema
           Sample.fields Sample.class_types Sample.unnamed "enums"
           (Some Sample.fragments) None).
  reflexivity.
Defined.

(** C8 (as amended).  When the generation reaches a field whose lookup
    raises, everything before it in the depth-first order having
    succeeded, the construction of the generator raises the exception of
    the lookup, with enough fuel, and no generator is built with any fuel:
    no module is emitted.  This holds at every depth.  The lookup of a
    root field raises exactly when the schema does not define the field
    for the kind of the operation, and then [ParsingError]; the lookup of
    a field of a nested type raises [KeyError] exactly when the field is
    not [__typename] and the schema field registry has no entry for it.
    (The fields selected under a type whose candidate name is already
    registered are not reached: they are not looked up.) *)
Theorem missing_definition_aborts {GraphQLType : Type}
  (parse_field_type : GraphQLType -> expr) schema fields class_types query
  enums_module_name fragments_definitions base_model_import query_name e :
  generation_fails parse_field_type schema fields class_types
    (default ∅ fragments_definitions) query query_name e ->
  (exists fuel0, forall fuel, fuel0 <= fuel ->
     __init__ fuel parse_field_type schema fields class_types query
              enums_module_name fragments_definitions base_model_import
     = Err e) /\
  (forall fuel g,
     __init__ fuel parse_field_type schema fields class_types query
              enums_module_name fragments_definitions base_model_import
     <> Ok g) /\
  (forall name e',
     root_lookup parse_field_type schema (od_operation query) name = Err e'
     <-> schema_root_field schema (od_operation query) name = None /\
         e' = ParsingError) /\
  (forall type_name name,
     nested_lookup fields type_name name = Err KeyError
     <-> name <> "__typename" /\
         registry_field fields type_name name = None).
Proof.
  intros Hfails.
  destruct (generation_fails_init parse_field_type schema fields class_types
              query enums_module_name fragments_definitions
              base_model_import _ _ Hfails) as [fuel0 Hrun].
  split; [by exists fuel0|]. split; [|split].
  - intros fuel g Hok.
    apply (init_not_both _ (fuel `max` fuel0) _ _ _ _ _ _ _ _ _ e Hok);
      [lia|].
    apply Hrun. lia.
  - intros name e'. unfold root_lookup.
    rewrite get_field_type_from_schema_spec.
    destruct (schema_root_field schema (od_operation query) name); simpl;
      split; try discriminate.
    + by intros [? _].
    + by intros [= <-].
    + by intros [_ ->].
  - intros type_name name. unfold nested_lookup.
    rewrite get_schema_field_definition_spec.
    destruct (String.eqb name "__typename") eqn:Hname.
    + apply String.eqb_eq in Hname. simpl. split; [discriminate|].
      by intros [? _].
    + apply String.eqb_neq in Hname.
      destruct (registry_field fields type_name name) as [[]|]; simpl;
        split; try discriminate; try tauto; by intros [_ ?].
Qed.

Lemma missing_definition_aborts_witness :
  registry_field Sample.fields "User" "nickname" = None /\
  generation_fails Sample.parse Sample.schema Sample.fields
    Sample.class_types (default ∅ (Some Sample.fragments)) Cases.lost "Lost"
    KeyError /\
  (exists fuel0, forall fuel, fuel0 <= fuel ->
     Sample.run_with fuel Cases.lost = Err KeyError) /\
  (forall fuel g, Sample.run_with fuel Cases.lost <> Ok g).
Proof.
  assert (Hfails :
    generation_fails Sample.parse Sample.schema Sample.fields
      Sample.class_types (default ∅ (Some Sample.fragments)) Cases.lost
      "Lost" KeyError).
  { eapply generation_fails_in_fields; [reflexivity | derive |].
    simpl. fails_below fails_here. }
  split; [vm_compute; reflexivity|]. split; [exact Hfails|].
  destruct (missing_definition_aborts Sample.parse Sample.schema
              Sample.fields Sample.class_types Cases.lost "enums"
              (Some Sample.fragments) None "Lost" KeyError Hfails)
    as (Hrun & Hnone & _).
  split; [exact Hrun | exact Hnone].
Defined.

(** C8 fails as stated: in [query Pair { user { id } friend { nickname } }]
    the selected field [nickname] of the type [User] has no schema field
    definition, and generation succeeds: the type of [friend] is already
    registered when [friend] is reached, so its selection is never looked
    up. *)
Lemma undefined_field_of_registered_type :
  registry_field Sample.fields "User" "nickname" = None /\
  (forall extra,
     Sample.run_with (extra + 3) Sample.pair = Ok Sample.pair_generator) /\
  map cd_name (g_class_defs Sample.pair_generator) = ["Pair"; "PairUser"].
Proof.
  split; [vm_compute; reflexivity|]. split; [|vm_compute; reflexivity].
  intros extra.
  destruct (init_fuel 3 extra Sample.parse Sample.schema Sample.fields
              Sample.class_types Sample.pair "enums"
              (Some Sample.fragments) None) as [H | H].
  - vm_compute in H. discriminate H.
  - unfold Sample.run_with. rewrite <- H. vm_compute. reflexivity.
Qed.

(** C9.  For an operation that has a generation (the root selection set
    flattens, every field reached is defined and its type expression can
    be processed), a generator is built with enough fuel, and the module
    it emits lists, after its imports, the type definitions of the
    generation: the root type (named as the operation) first, followed by
    the synthesized dependency types in depth-first, field-order sequence
    (the order of [class_fields], which is that of [visit_fields] on
    names), and then, after all type definitions, one forward-reference
    finalization call per emitted type, in the same order.  Conversely
    every generator that is built is that of a generation. *)
Theorem module_order {GraphQLType : Type}
  (parse_field_type : GraphQLType -> expr) schema fields class_types query
  enums_module_name fragments_definitions base_model_import
  query_name cds es used :
  generation parse_field_type schema fields class_types
    (default ∅ fragments_definitions) query query_name cds es used ->
  (exists fuel0, forall fuel, fuel0 <= fuel ->
     exists g root extra fs,
       __init__ fuel parse_field_type schema fields class_types query
                enums_module_name fragments_definitions base_model_import
       = Ok g /\
       cds = root :: extra /\
       g_class_defs g = root :: extra /\
       od_name query = Some (cd_name root) /\
       resolves (default ∅ fragments_definitions) (od_selection_set query)
                "" fs /\
       visit_fields fields (cd_name root) (default ∅ fragments_definitions)
         [cd_name root]
         (root_annotation parse_field_type schema (od_operation query)) fs
         (map cd_name extra) /\
       body (fst (generate g)) =
         map Import (initial_imports base_model_import ++ enum_import g)
         ++ map ClassDefStmt (root :: extra)
         ++ map finalization (root :: extra) /\
       length (map finalization (root :: extra)) = length (root :: extra) /\
       NoDup (map cd_name (root :: extra))) /\
  (forall fuel g,
     __init__ fuel parse_field_type schema fields class_types query
              enums_module_name fragments_definitions base_model_import
     = Ok g ->
     exists query_name' cds' es' used',
       generation parse_field_type schema fields class_types
         (default ∅ fragments_definitions) query query_name' cds' es' used' /\
       g_class_defs g = cds').
Proof.
  intros Hgen. split.
  - destruct (generation_init parse_field_type schema fields class_types
                query enums_module_name fragments_definitions
                base_model_import _ _ _ _ Hgen) as [fuel0 Hrun].
    exists fuel0. intros fuel Hle. specialize (Hrun fuel Hle).
    pose proof (generate_body _ _ _ _ _ _ _ _ _ _ Hrun) as Hbody.
    pose proof Hrun as Hinit.
    apply init_inv in Hinit as (qn & cds' & st' & Hname & Hparse & Hg).
    apply (f_equal g_class_defs) in Hg. cbn [g_class_defs] in Hg, Hbody.
    unfold generator_of_generation in Hg at 1. cbn [g_class_defs] in Hg.
    subst cds'.
    apply parse_query_sound in Hparse
      as (root & extra & fs & -> & <- & Hres & Hv & _ & Hnd).
    cbn [public_names app] in Hv, Hnd.
    eexists _, root, extra, fs. split; [exact Hrun|].
    repeat split; try assumption; try reflexivity.
    + by rewrite length_map.
    + apply Hnd, NoDup_singleton.
  - intros fuel g (qn & cds' & es' & used' & Hgen' & ->)%init_generation.
    by exists qn, cds', es', used'.
Qed.

Lemma module_order_witness :
  exists fuel0, forall fuel, fuel0 <= fuel ->
    exists g,
      Sample.run_with fuel Sample.get_user = Ok g /\
      map cd_name (g_class_defs g)
        = ["GetUser"; "GetUserUser"; "GetUserAddress"] /\
      body (fst (generate g)) =
        map Import (initial_imports None ++ enum_import g)
        ++ map ClassDefStmt (g_class_defs g)
        ++ map finalization (g_class_defs g).
Proof.
  assert (Hgen : exists cds es used,
    generation Sample.parse Sample.schema Sample.fields Sample.class_types
      (default ∅ (Some Sample.fragments)) Sample.get_user "GetUser"
      cds es used /\
    map cd_name cds = ["GetUser"; "GetUserUser"; "GetUserAddress"]).
  { eexists _, _, _. split; [derive | reflexivity]. }
  destruct Hgen as (cds & es & used & Hgen & Hnames).
  destruct (module_order Sample.parse Sample.schema Sample.fields
              Sample.class_types Sample.get_user "enums"
              (Some Sample.fragments) None "GetUser" cds es used Hgen)
    as [[fuel0 H] _].
  exists fuel0. intros fuel Hle.
  destruct (H fuel Hle)
    as (g & root & extra & fs & Hrun & Hcds & Hg & _ & _ & _ & Hbody & _).
  exists g. split; [exact Hrun|]. split.
  - by rewrite Hg, <- Hcds.
  - by rewrite Hg.
Defined.

(** C10 (the code at the failing input).  The root selection set of the
    operation is resolved against the empty string as root type name, so
    an inline fragment standing directly in it that has a type condition (a
    GraphQL name, hence not empty) contributes no field: resolution, and
    with it the whole construction of the generator, gives what it gives
    without the fragment, and with enough fuel returns the fields the rest
    of the selection set flattens to.  An inline fragment that has no type
    condition does not contribute zero fields: its type condition is read
    without a test, and [AttributeError] is raised as soon as the
    selections before it are resolved, so that no generator is built, as
    for [query Root { ... { user { id } } color }], while the operation
    without the fragment gives a generator. *)
Theorem root_inline_fragments_dropped {GraphQLType : Type} fuel
  (parse_field_type : GraphQLType -> expr) schema fields class_types
  operation name enums_module_name fragments_definitions base_model_import
  pre cond sel post st fs used :
  cond <> "" ->
  flattens (default ∅ fragments_definitions) "" (pre ++ post) fs used ->
  _resolve_selection_set (default ∅ fragments_definitions) fuel
    (pre ++ InlineFragmentNode (Some cond) sel :: post) "" st =
  _resolve_selection_set (default ∅ fragments_definitions) fuel
    (pre ++ post) "" st /\
  _parse_query parse_field_type schema fields class_types operation name
    (default ∅ fragments_definitions) fuel
    (pre ++ InlineFragmentNode (Some cond) sel :: post) st =
  obind (_resolve_selection_set (default ∅ fragments_definitions) fuel
           (pre ++ post) ""
           (mkState (public_names st ++ [name]) (used_enums st)
                    (used_fragments_names st)))
    (fun r =>
       obind (query_fields parse_field_type schema class_types operation
                name
                (_generate_dependency_type_class fields class_types name
                   (default ∅ fragments_definitions) fuel)
                1 (fst r) (snd r))
         (fun r' =>
            Ok ([with_body (generate_class_def name ["BaseModel"])
                           (fst (fst r'))] ++ snd (fst r'), snd r'))) /\
  __init__ fuel parse_field_type schema fields class_types
    (mkOperation operation (Some name)
       (pre ++ InlineFragmentNode (Some cond) sel :: post))
    enums_module_name fragments_definitions base_model_import =
  __init__ fuel parse_field_type schema fields class_types
    (mkOperation operation (Some name) (pre ++ post))
    enums_module_name fragments_definitions base_model_import /\
  (exists fuel0, forall fuel' st0, fuel0 <= fuel' ->
     _resolve_selection_set (default ∅ fragments_definitions) fuel'
       (pre ++ InlineFragmentNode (Some cond) sel :: post) "" st0
     = Ok (fs, with_fragments used st0)) /\
  (forall fuel' st0,
     _resolve_selection_set (default ∅ fragments_definitions) fuel'
       (pre ++ InlineFragmentNode None sel :: post) "" st0 =
     obind (_resolve_selection_set (default ∅ fragments_definitions) fuel'
              pre "" st0)
           (fun _ => Err AttributeError)) /\
  (forall fpre upre,
     flattens (default ∅ fragments_definitions) "" pre fpre upre ->
     exists fuel0, forall fuel', fuel0 <= fuel' ->
       __init__ fuel' parse_field_type schema fields class_types
         (mkOperation operation (Some name)
            (pre ++ InlineFragmentNode None sel :: post))
         enums_module_name fragments_definitions base_model_import
       = Err AttributeError) /\
  (forall fuel', Sample.run_with fuel' Cases.untyped_root
                 = Err AttributeError) /\
  (exists g, Sample.run (mkOperation QUERY (Some "Root")
                           [FieldNode "color" None]) = Ok g).
Proof.
  intros Hcond Hfs.
  assert (Hres : forall fuel' st0,
    _resolve_selection_set (default ∅ fragments_definitions) fuel'
      (pre ++ InlineFragmentNode (Some cond) sel :: post) "" st0 =
    _resolve_selection_set (default ∅ fragments_definitions) fuel'
      (pre ++ post) "" st0).
  { intros fuel' st0. rewrite resolve_inline_fragment.
    apply String.eqb_neq in Hcond. by rewrite Hcond. }
  split; [apply Hres|]. split; [|split; [|split; [|split; [|split]]]].
  - unfold _parse_query, bind. cbn [register_name obind fst snd].
    rewrite Hres. reflexivity.
  - unfold __init__, _parse_query, bind.
    cbn [od_name od_selection_set od_operation register_name obind fst snd].
    rewrite Hres. reflexivity.
  - destruct (flattens_resolve _ _ _ _ _ Hfs) as [fuel0 H].
    exists fuel0. intros fuel' st0 Hle. rewrite Hres. by apply H.
  - intros fuel' st0. apply resolve_inline_untyped.
  - intros fpre upre Hpre.
    destruct (flattens_resolve _ _ _ _ _ Hpre) as [fuel0 H].
    exists fuel0. intros fuel' Hle.
    rewrite (init_unfold _ _ _ _ (mkOperation operation (Some name) _)
               _ _ _ _ name eq_refl).
    cbn [od_selection_set]. rewrite resolve_inline_untyped, H by done.
    reflexivity.
  - split.
    + intros fuel'. unfold Sample.run_with.
      rewrite (init_unfold _ _ _ _ Cases.untyped_root _ _ _ _ "Root"
                 eq_refl).
      change (od_selection_set Cases.untyped_root)
        with ([] ++ InlineFragmentNode None
                      [FieldNode "user" (Some [FieldNode "id" None])]
                    :: [FieldNode "color" None]).
      rewrite resolve_inline_untyped, resolve_unfold. reflexivity.
    + eexists. vm_compute. reflexivity.
Qed.

Lemma root_inline_fragments_dropped_witness :
  "Query" <> "" /\
  flattens (default ∅ (Some Sample.fragments)) ""
    ([] ++ [FieldNode "color" None]) [("color", None)] ∅ /\
  Sample.run Sample.root_inline =
  Sample.run (mkOperation QUERY (Some "Root") [FieldNode "color" None]) /\
  exists fuel0, forall fuel st, fuel0 <= fuel ->
    _resolve_selection_set Sample.fragments fuel
      (od_selection_set Sample.root_inline) "" st
    = Ok ([("color", None)], with_fragments ∅ st).
Proof.
  assert (Hcond : "Query" <> "") by discriminate.
  assert (Hfs : flattens (default ∅ (Some Sample.fragments)) ""
                  ([] ++ [FieldNode "color" None]) [("color", None)] ∅)
    by repeat constructor.
  split; [exact Hcond|]. split; [exact Hfs|].
  destruct (root_inline_fragments_dropped 3 Sample.parse Sample.schema
              Sample.fields Sample.class_types QUERY "Root" "enums"
              (Some Sample.fragments) None
              [] "Query" [FieldNode "user" (Some [FieldNode "id" None])]
              [FieldNode "color" None] Sample.empty_state
              [("color", None)] ∅ Hcond Hfs)
    as (_ & _ & H & Htotal & _).
  split; [exact H | exact Htotal].
Defined.

(** * Further properties *)

(** ** Annotations *)

(** X1.  No name extracted by [_walk_annotation] contains a double quote:
    extracted names are the names of the types, whether the leaves were
    forward-reference quoted or not. *)
Theorem walk_names_unquoted a :
  Forall (fun n => remove_quotes n = n) (_walk_annotation a).
Proof.
  induction a as [id | v s Helts IHs | elts | src] using expr_slice_ind;
    try (by constructor).
  - constructor; [apply remove_quotes_idemp | constructor].
  - destruct s as [id | v' s' | elts | src]; try exact IHs.
    specialize (Helts elts eq_refl). simpl. clear IHs.
    induction Helts as [|x l Hx _ IH]; simpl; [constructor|].
    apply Forall_app. by split.
Qed.

(** X2.  An expression that [_add_prefix_to_annotation] rewrote can be
    rewritten again, with any prefix: the second rewriting succeeds, and
    the names of its result are the original names with both prefixes
    before them, the later prefix first. *)
Theorem rewriting_composes a p a' q :
  _add_prefix_to_annotation a p = Ok a' ->
  exists a'',
    _add_prefix_to_annotation a' q = Ok a'' /\
    _walk_annotation a'' =
      map (fun n => remove_quotes q +:+ remove_quotes p +:+ n)
          (_walk_annotation a).
Proof.
  rewrite add_prefix_spec.
  destruct (all_leaves_quoted a) eqn:Ha; [|discriminate].
  intros [= <-]. exists (prefix_leaves q (prefix_leaves p a)). split.
  - rewrite add_prefix_spec.
    pose proof (prefix_leaves_quoted p a) as Hq. rewrite Ha in Hq.
    simpl in Hq. by rewrite Hq.
  - rewrite !walk_prefix_leaves, map_map. reflexivity.
Qed.

Lemma rewriting_composes_witness :
  _add_prefix_to_annotation
    (Sample.optional (Name (Sample.quoted "User"))) "GetUser"
  = Ok (Sample.optional (Name (Sample.quoted "GetUserUser"))) /\
  exists a'',
    _add_prefix_to_annotation
      (Sample.optional (Name (Sample.quoted "GetUserUser"))) "V2" = Ok a'' /\
    _walk_annotation a'' = ["V2GetUserUser"].
Proof.
  assert (H : _add_prefix_to_annotation
                (Sample.optional (Name (Sample.quoted "User"))) "GetUser"
              = Ok (Sample.optional (Name (Sample.quoted "GetUserUser"))))
    by (vm_compute; reflexivity).
  split; [exact H|].
  destruct (rewriting_composes _ _ _ "V2" H) as (a'' & H1 & H2).
  exists a''. split; [exact H1|]. rewrite H2. vm_compute. reflexivity.
Defined.

(** ** Resolution *)

(** X3.  A selection set made of field selections only resolves to these
    fields, in order, whatever the root type, the fragment table and the
    bound on the nesting of fragments, and leaves the state as it is. *)
Theorem resolve_fields_only fragments_definitions fuel fs root_type st :
  _resolve_selection_set fragments_definitions fuel
    (map field_selection fs) root_type st = Ok (fs, st).
Proof. apply resolve_field_selections. Qed.

(** X4.  A spread of a fragment that the fragment table does not hold
    raises [KeyError] when it is reached: what stands before it is
    resolved, what stands after it is not. *)
Theorem resolve_missing_fragment fragments_definitions fuel pre name post
  root_type st :
  fragments_definitions !! name = None ->
  _resolve_selection_set fragments_definitions fuel
    (pre ++ FragmentSpreadNode name :: post) root_type st =
  obind (_resolve_selection_set fragments_definitions fuel pre root_type st)
        (fun _ => Err KeyError).
Proof.
  intros Hnone. rewrite !resolve_unfold, extend_each_app.
  destruct (extend_each _ pre st) as [[f1 s1]| |]; cbn [obind fst snd];
    try reflexivity.
  rewrite extend_each_cons. simpl. unfold bind. simpl. by rewrite Hnone.
Qed.

Lemma resolve_missing_fragment_witness :
  Sample.fragments !! "Missing" = None /\
  _resolve_selection_set Sample.fragments 3
    ([FieldNode "id" None] ++ FragmentSpreadNode "Missing" :: [])
    "User" Sample.empty_state = Err KeyError.
Proof.
  assert (H : Sample.fragments !! "Missing" = None)
    by (vm_compute; reflexivity).
  split; [exact H|].
  rewrite (resolve_missing_fragment Sample.fragments 3
             [FieldNode "id" None] "Missing" [] "User" Sample.empty_state H).
  vm_compute. reflexivity.
Defined.

(** X5.  An inline fragment without a type condition raises
    [AttributeError] when it is reached, against every root type. *)
Theorem resolve_inline_without_condition fragments_definitions fuel pre sel
  post root_type st :
  _resolve_selection_set fragments_definitions fuel
    (pre ++ InlineFragmentNode None sel :: post) root_type st =
  obind (_resolve_selection_set fragments_definitions fuel pre root_type st)
        (fun _ => Err AttributeError).
Proof.
  rewrite !resolve_unfold, extend_each_app.
  destruct (extend_each _ pre st) as [[f1 s1]| |]; reflexivity.
Qed.

Lemma extend_each_ext (f1 f2 : selection -> M (list field_node)) l :
  Forall (fun x => forall st, f1 x st = f2 x st) l ->
  forall st, extend_each f1 l st = extend_each f2 l st.
Proof.
  induction 1 as [|x l Hx _ IH]; intros st; [reflexivity|].
  rewrite !extend_each_cons, Hx.
  destruct (f2 x st) as [[fs s1]| |]; cbn [obind fst snd]; try reflexivity.
  by rewrite IH.
Qed.

Lemma resolve_selection_retyped f fragments_definitions rec1 rec2 root_type :
  (forall l st, rec1 l root_type st = rec2 l root_type st) ->
  forall x st,
    resolve_selection (with_type_condition f <$> fragments_definitions)
                      rec1 root_type x st =
    resolve_selection fragments_definitions rec2 root_type x st.
Proof.
  intros Hrec x.
  induction x as [name sel | name | cond sel IH] using selection_nested_ind;
    intros st; simpl.
  - reflexivity.
  - unfold bind. simpl. rewrite lookup_fmap.
    destruct (fragments_definitions !! name) as [d|]; simpl; [|reflexivity].
    apply Hrec.
  - destruct cond as [cond|]; [|reflexivity].
    destruct (String.eqb cond root_type); [|reflexivity].
    by apply extend_each_ext.
Qed.

(** X6.  Resolution never reads the type condition of a named fragment:
    with the type conditions of the fragment table changed in any way, it
    gives the same result.  (Only inline fragments are filtered by their
    type condition.) *)
Theorem resolve_ignores_fragment_type_condition f fragments_definitions
  fuel l root_type st :
  _resolve_selection_set (with_type_condition f <$> fragments_definitions)
                         fuel l root_type st =
  _resolve_selection_set fragments_definitions fuel l root_type st.
Proof.
  revert l st. induction fuel as [|fuel IH]; intros l st;
    rewrite !resolve_unfold; apply extend_each_ext, Forall_forall;
    intros x _ st0; apply resolve_selection_retyped; intros l1 st1; simpl.
  - reflexivity.
  - apply IH.
Qed.

(** X7.  A fragment whose own selection set spreads the fragment itself
    makes every selection set that spreads it fail to resolve, with any
    bound on the nesting: the recursion of the source does not end (or an
    exception is raised on the way). *)
Theorem resolve_self_spreading_fragment fragments_definitions name d own_pre
  own_post fuel pre post root_type st r :
  fragments_definitions !! name = Some d ->
  fd_selection_set d = own_pre ++ FragmentSpreadNode name :: own_post ->
  _resolve_selection_set fragments_definitions fuel
    (pre ++ FragmentSpreadNode name :: post) root_type st <> Ok r.
Proof.
  intros Hd Hown. revert pre post st r.
  induction fuel as [|fuel IH]; intros pre post st [fs st'].
  - apply resolve_needs_fuel.
  - rewrite resolve_spread, Hd, Hown. intros H.
    obind_inv H. obind_inv H. by eapply IH.
Qed.

Lemma resolve_self_spreading_fragment_witness :
  Cases.looping !! "Loop"
  = Some (mkFragment "User"
            [FieldNode "id" None; FragmentSpreadNode "Loop"]) /\
  _resolve_selection_set Cases.looping 50
    ([] ++ FragmentSpreadNode "Loop" :: []) "User" Sample.empty_state
  = OutOfFuel.
Proof.
  assert (Hd : Cases.looping !! "Loop"
               = Some (mkFragment "User"
                         [FieldNode "id" None; FragmentSpreadNode "Loop"]))
    by (vm_compute; reflexivity).
  split; [exact Hd|].
  pose proof (fun r => resolve_self_spreading_fragment Cases.looping "Loop"
                 _ [FieldNode "id" None] [] 50 [] [] "User"
                 Sample.empty_state r Hd eq_refl) as Hno.
  destruct (_resolve_selection_set Cases.looping 50
              ([] ++ FragmentSpreadNode "Loop" :: []) "User"
              Sample.empty_state) as [r | e |] eqn:E.
  - exfalso. by apply (Hno r).
  - vm_compute in E. discriminate E.
  - reflexivity.
Defined.

Section used_fragments.
Variable fragments_definitions : gmap string FragmentDefinitionNode.

Local Abbreviation adds_defined := (adds_defined fragments_definitions).

Lemma extend_each_adds_defined f l :
  Forall (fun x => adds_defined (f x)) l -> adds_defined (extend_each f l).
Proof.
  induction 1 as [|x l Hx _ IH]; intros st fs st'.
  - intros [= <- <-]. set_solver.
  - rewrite extend_each_cons. intros H.
    obind_inv H. destruct a as [f1 s1]. cbn [fst snd] in H.
    obind_inv H. destruct a as [f2 s2]. cbn [fst snd] in H.
    injection H as <- <-. apply Hx in E. apply IH in E0.
    intros n Hn. apply E0 in Hn. apply elem_of_union in Hn as [Hn|Hn].
    + by apply E.
    + by apply elem_of_union_r.
Qed.

Lemma resolve_selection_adds_defined rec root_type :
  (forall l, adds_defined (rec l root_type)) ->
  forall x,
    adds_defined (resolve_selection fragments_definitions rec root_type x).
Proof.
  intros Hrec x.
  induction x as [name sel | name | cond sel IH] using selection_nested_ind;
    intros st fs st'; simpl.
  - intros [= <- <-]. set_solver.
  - unfold bind; simpl.
    destruct (fragments_definitions !! name) as [d|] eqn:Hd; [|discriminate].
    intros H. apply Hrec in H. cbn [used_fragments_names] in H.
    assert (Hname : name ∈ dom fragments_definitions)
      by (apply elem_of_dom; eauto).
    intros n Hn. apply H in Hn. rewrite !elem_of_union in Hn.
    rewrite elem_of_singleton in Hn. apply elem_of_union.
    destruct Hn as [[-> | Hn] | Hn]; auto.
  - destruct cond as [cond|]; [|discriminate].
    destruct (String.eqb cond root_type).
    + by apply extend_each_adds_defined.
    + intros [= <- <-]. set_solver.
Qed.

Lemma resolve_selection_set_adds_defined fuel l root_type :
  adds_defined
    (_resolve_selection_set fragments_definitions fuel l root_type).
Proof.
  revert l. induction fuel as [|fuel IH]; intros l;
    rewrite resolve_unfold; apply extend_each_adds_defined, Forall_forall;
    intros x _; apply resolve_selection_adds_defined; intros l0; simpl.
  - intros st fs st'. discriminate.
  - apply IH.
Qed.

End used_fragments.

(** X8.  A resolution that succeeds changes nothing of the state but the
    used fragment names: it keeps those there were and adds only names of
    fragments that the fragment table holds. *)
Theorem resolve_adds_defined_fragments fragments_definitions fuel l
  root_type st fs st' :
  _resolve_selection_set fragments_definitions fuel l root_type st
    = Ok (fs, st') ->
  public_names st' = public_names st /\
  used_enums st' = used_enums st /\
  used_fragments_names st ⊆ used_fragments_names st' /\
  used_fragments_names st'
    ⊆ used_fragments_names st ∪ dom fragments_definitions.
Proof.
  intros H.
  pose proof (resolve_selection_set_frame _ _ _ _ _ _ _ H) as (Hp & He & Hu).
  apply resolve_selection_set_adds_defined in H. auto.
Qed.

Lemma resolve_adds_defined_fragments_witness :
  _resolve_selection_set Sample.fragments 1
    [FieldNode "street" None; FragmentSpreadNode "AddrFields"]
    "Address" Sample.empty_state
  = Ok ([("street", None); ("city", None)],
        mkState [] [] {[ "AddrFields" ]}) /\
  used_fragments_names (mkState [] [] {[ "AddrFields" ]})
    ⊆ used_fragments_names Sample.empty_state ∪ dom Sample.fragments.
Proof.
  assert (H : _resolve_selection_set Sample.fragments 1
                [FieldNode "street" None; FragmentSpreadNode "AddrFields"]
                "Address" Sample.empty_state
              = Ok ([("street", None); ("city", None)],
                    mkState [] [] {[ "AddrFields" ]}))
    by (vm_compute; reflexivity).
  split; [exact H|].
  destruct (resolve_adds_defined_fragments _ _ _ _ _ _ _ H)
    as (_ & _ & _ & Hdom).
  exact Hdom.
Defined.

(** ** Properties of the state kept by a whole run *)

Section state_invariant.
Context {GraphQLType : Type}.
Variable parse_field_type : GraphQLType -> expr.
Variable schema : GraphQLSchema GraphQLType.
Variable fields : gmap string (gmap string field_definition).
Variable class_types : gmap string ClassType.
Variable operation : OperationType.
Variable query_name : string.
Variable fragments_definitions : gmap string FragmentDefinitionNode.
Variable I : gen_state -> Prop.
Hypothesis I_register : forall n, keeps I (register_name n).
Hypothesis I_procces :
  forall a names, keeps I (_procces_annotation class_types query_name a names).
Hypothesis I_resolve :
  forall fuel l root_type,
    keeps I (_resolve_selection_set fragments_definitions fuel l root_type).

Lemma dependencies_of_keeps rec type_names sel :
  (forall n s, keeps I (rec n s)) ->
  keeps I (dependencies_of rec type_names sel).
Proof.
  intros Hrec. induction type_names as [|n type_names IH];
    intros st ds st'; simpl.
  - by intros [= <- <-].
  - unfold bind. intros H.
    obind_inv H. destruct a as [r s1]. cbn [fst snd] in H.
    obind_inv H. destruct a as [more s2]. cbn [fst snd] in H.
    injection H as <- <-. intros Hst. eapply IH; eauto. eapply Hrec; eauto.
Qed.

Lemma field_dependencies_keeps rec type_names sel :
  (forall n s, keeps I (rec n s)) ->
  keeps I (field_dependencies rec type_names sel).
Proof.
  intros Hrec. destruct sel as [sel|]; simpl.
  - by apply dependencies_of_keeps.
  - by intros st r st' [= <- <-].
Qed.

Lemma dependency_fields_keeps rec type_name lineno fs :
  (forall n s, keeps I (rec n s)) ->
  keeps I
    (dependency_fields fields class_types query_name rec type_name lineno fs).
Proof.
  intros Hrec. revert lineno.
  induction fs as [|[name sel] rest IH]; intros lineno st r st'; simpl.
  - by intros [= <- <-].
  - unfold bind, lift. intros H.
    destruct (_get_schema_field_definition fields type_name name)
      as [[target a value l0 | ? ?] | |];
      cbn [obind fst snd] in H; try discriminate H.
    obind_inv H. destruct a0 as [a' s1]. cbn [fst snd] in H.
    obind_inv H. destruct a0 as [deps s2]. cbn [fst snd] in H.
    obind_inv H. destruct a0 as [r' s3]. cbn [fst snd] in H.
    injection H as <- <-. intros Hst.
    eapply IH; eauto. eapply field_dependencies_keeps; eauto.
    eapply I_procces; eauto.
Qed.

Lemma query_fields_keeps rec lineno fs :
  (forall n s, keeps I (rec n s)) ->
  keeps I
    (query_fields parse_field_type schema class_types operation query_name
                  rec lineno fs).
Proof.
  intros Hrec. revert lineno.
  induction fs as [|[name sel] rest IH]; intros lineno st r st'; simpl.
  - by intros [= <- <-].
  - unfold bind, lift. intros H.
    destruct (_get_field_type_from_schema schema operation name)
      as [t | |]; cbn [obind fst snd] in H; try discriminate H.
    obind_inv H. destruct a as [a' s1]. cbn [fst snd] in H.
    obind_inv H. destruct a as [deps s2]. cbn [fst snd] in H.
    obind_inv H. destruct a as [r' s3]. cbn [fst snd] in H.
    injection H as <- <-. intros Hst.
    eapply IH; eauto. eapply field_dependencies_keeps; eauto.
    eapply I_procces; eauto.
Qed.

Lemma generate_dependency_type_class_keeps fuel type_name sel :
  keeps I
    (_generate_dependency_type_class fields class_types query_name
       fragments_definitions fuel type_name sel).
Proof.
  revert type_name sel.
  induction fuel as [|fuel IH]; intros type_name sel st r st'; simpl;
    case_bool_decide as Hin; try discriminate.
  - by intros [= <- <-].
  - by intros [= <- <-].
  - unfold bind. intros H.
    obind_inv H. destruct a as [[] s0]. cbn [fst snd] in H.
    obind_inv H. destruct a as [fs s1]. cbn [fst snd] in H.
    obind_inv H. destruct a as [r' s2]. cbn [fst snd] in H.
    injection H as <- <-. intros Hst.
    eapply dependency_fields_keeps; eauto.
    eapply I_resolve; eauto. eapply I_register; eauto.
Qed.

Lemma parse_query_keeps fuel sel :
  keeps I
    (_parse_query parse_field_type schema fields class_types operation
                  query_name fragments_definitions fuel sel).
Proof.
  intros st r st'. unfold _parse_query, bind. intros H.
  obind_inv H. destruct a as [[] s0]. cbn [fst snd] in H.
  obind_inv H. destruct a as [fs s1]. cbn [fst snd] in H.
  obind_inv H. destruct a as [r' s2]. cbn [fst snd] in H.
  injection H as <- <-. intros Hst.
  eapply query_fields_keeps; eauto.
  - intros n s. apply generate_dependency_type_class_keeps.
  - eapply I_resolve; eauto. eapply I_register; eauto.
Qed.

End state_invariant.

Lemma procces_annotation_used class_types query_name a names st a' st' :
  _procces_annotation class_types query_name a names st = Ok (a', st') ->
  used_fragments_names st' = used_fragments_names st.
Proof.
  unfold _procces_annotation.
  destruct (existsb _ _).
  - unfold lift. intros H. obind_inv H. by injection H as <- <-.
  - intros [= <- <-]. apply record_enums_frame.
Qed.

Lemma init_fragments_defined {GraphQLType : Type} fuel
  (parse_field_type : GraphQLType -> expr) schema fields class_types query
  enums_module_name fragments_definitions base_model_import g :
  __init__ fuel parse_field_type schema fields class_types query
           enums_module_name fragments_definitions base_model_import = Ok g ->
  g_used_fragments_names g ⊆ dom (default ∅ fragments_definitions).
Proof.
  intros (qn & cds & st' & _ & Hrun & ->)%init_inv.
  cbn [g_used_fragments_names].
  eapply (parse_query_keeps _ _ _ _ _ _ _
            (fragments_defined (default ∅ fragments_definitions)));
    [| | |exact Hrun|].
  - intros n st r st0 [= _ <-] Hst. exact Hst.
  - intros a names st r st0 H Hst. unfold fragments_defined.
    by rewrite (procces_annotation_used _ _ _ _ _ _ _ H).
  - intros fuel0 l root_type st r st0 H Hst. unfold fragments_defined in *.
    apply resolve_selection_set_adds_defined in H.
    intros n Hn. apply H in Hn. apply elem_of_union in Hn as [Hn|Hn]; auto.
  - unfold fragments_defined. cbn [used_fragments_names].
    intros n Hn. by apply not_elem_of_empty in Hn.
Qed.

(** X9.  For a generator that [__init__] built, every used fragment name is
    a key of the fragment table, so [get_operation_as_str] raises no
    [KeyError], in whatever order sets are iterated: it returns the text of
    the operation, alone when no fragment was used, and otherwise followed
    by a blank line and texts joined by blank lines; there is one text
    for each used fragment name, the printed definition of the fragment,
    and the joined texts are exactly these, as a set. *)
Theorem rendered_operation {GraphQLType : Type} fuel
  (parse_field_type : GraphQLType -> expr) schema fields class_types query
  enums_module_name fragments_definitions base_model_import g
  print_operation print_fragment set_order :
  (forall s n, n ∈ set_order s <-> n ∈ s) ->
  __init__ fuel parse_field_type schema fields class_types query
           enums_module_name fragments_definitions base_model_import = Ok g ->
  g_used_fragments_names g ⊆ dom (default ∅ fragments_definitions) /\
  exists rest,
    get_operation_as_str print_operation print_fragment set_order query
      (default ∅ fragments_definitions) g
    = Ok (print_operation query +:+ rest) /\
    if decide (g_used_fragments_names g = ∅)
    then rest = ""
    else exists texts,
        Forall2 (fun n t => exists d,
                   default ∅ fragments_definitions !! n = Some d /\
                   t = print_fragment d)
                (set_order (g_used_fragments_names g)) texts /\
        rest = blank_line
               +:+ join blank_line (set_order (list_to_set texts)) /\
        forall t,
          t ∈ set_order (list_to_set texts) <->
          exists n d,
            n ∈ g_used_fragments_names g /\
            default ∅ fragments_definitions !! n = Some d /\
            t = print_fragment d.
Proof.
  intros Horder Hinit.
  pose proof (init_fragments_defined _ _ _ _ _ _ _ _ _ _ Hinit) as Hdom.
  split; [exact Hdom|].
  unfold get_operation_as_str.
  destruct (decide (g_used_fragments_names g = ∅)) as [Hempty|Hused].
  - exists "". by rewrite append_empty_r.
  - set (F := default ∅ fragments_definitions) in *.
    set (text_of := fun n => match F !! n with
                             | Some d => print_fragment d
                             | None => ""
                             end).
    assert (Hall : Forall (fun n => exists d, n ∈ g_used_fragments_names g /\
                                     F !! n = Some d)
                          (set_order (g_used_fragments_names g))).
    { apply Forall_forall. intros n Hn%Horder.
      pose proof (Hdom n Hn) as [d Hd]%elem_of_dom. eauto. }
    rewrite (comprehension_all _ text_of).
    + cbn [obind]. eexists. split; [reflexivity|].
      exists (map text_of (set_order (g_used_fragments_names g))).
      split; [|split; [reflexivity|]].
      * apply Forall2_fmap_r, Forall_Forall2_diag.
        eapply Forall_impl; [exact Hall|].
        intros n (d & _ & Hd). exists d. unfold text_of. by rewrite Hd.
      * intros t. rewrite Horder, elem_of_list_to_set, list_elem_of_fmap.
        split.
        -- intros (n & -> & Hn%Horder).
           pose proof (Hdom n Hn) as [d Hd]%elem_of_dom.
           exists n, d. unfold text_of. by rewrite Hd.
        -- intros (n & d & Hn & Hd & ->). exists n.
           unfold text_of. rewrite Hd. split; [reflexivity|].
           by apply Horder.
    + eapply Forall_impl; [exact Hall|].
      intros n (d & _ & Hd). unfold text_of. by rewrite Hd.
Qed.

Lemma rendered_operation_witness :
  (forall (s : gset string) n, n ∈ elements s <-> n ∈ s) /\
  Sample.run Sample.get_user = Ok Sample.get_user_generator /\
  get_operation_as_str Cases.print_operation Cases.print_fragment elements
    Sample.get_user Sample.fragments Sample.get_user_generator
  = Ok ("operation GetUser" +:+ blank_line +:+ "fragment on Address") /\
  g_used_fragments_names Sample.get_user_generator
    ⊆ dom (default ∅ (Some Sample.fragments)).
Proof.
  assert (Horder : forall (s : gset string) n, n ∈ elements s <-> n ∈ s)
    by (intros s n; apply elem_of_elements).
  assert (Hrun : Sample.run Sample.get_user = Ok Sample.get_user_generator)
    by (vm_compute; reflexivity).
  split; [exact Horder|]. split; [exact Hrun|].
  destruct (rendered_operation 3 Sample.parse Sample.schema Sample.fields
              Sample.class_types Sample.get_user "enums"
              (Some Sample.fragments) None Sample.get_user_generator
              Cases.print_operation Cases.print_fragment elements
              Horder Hrun) as (Hdom & rest & Hrest & _).
  split; [vm_compute; reflexivity | exact Hdom].
Defined.

(** ** The emitted module, again *)

(** X10.  [generate] is not idempotent: a call leaves the import of the
    enum module in [imports], so the next call appends it again and the
    module of a second call has it twice (when an enum name was recorded);
    nothing else of the generator changes. *)
Theorem generate_twice self :
  g_imports (snd (generate self))
    = g_imports self ++ map Import (enum_import self) /\
  g_class_defs (snd (generate self)) = g_class_defs self /\
  g_used_enums (snd (generate self)) = g_used_enums self /\
  g_public_names (snd (generate self)) = g_public_names self /\
  g_used_fragments_names (snd (generate self))
    = g_used_fragments_names self /\
  body (fst (generate (snd (generate self)))) =
    g_imports self
    ++ map Import (enum_import self) ++ map Import (enum_import self)
    ++ map ClassDefStmt (g_class_defs self)
    ++ map finalization (g_class_defs self).
Proof.
  unfold generate, enum_import. destruct self as [qn em imps pn cds ue uf].
  cbn [g_imports g_used_enums g_class_defs g_enums_module_name
       g_public_names g_used_fragments_names g_query_name fst snd body].
  destruct ue as [|e ue]; repeat split; simpl; try by rewrite app_nil_r.
  by rewrite <- !app_assoc.
Qed.

(** ** Root fields *)

(** X11.  When the schema has no root type for the kind of the operation (a
    query without query type, a mutation without mutation type, any
    subscription) and the root selection set resolves to at least one
    field, the construction of the generator raises [ParsingError]. *)
Theorem operation_without_root_type {GraphQLType : Type} fuel
  (parse_field_type : GraphQLType -> expr) schema fields class_types query
  enums_module_name fragments_definitions base_model_import
  query_name f fs st' :
  match od_operation query with
  | QUERY => query_type schema = None
  | MUTATION => mutation_type schema = None
  | SUBSCRIPTION => True
  end ->
  od_name query = Some query_name ->
  _resolve_selection_set (default ∅ fragments_definitions) fuel
    (od_selection_set query) ""
    (mkState [query_name] [] ∅) = Ok (f :: fs, st') ->
  __init__ fuel parse_field_type schema fields class_types query
           enums_module_name fragments_definitions base_model_import
  = Err ParsingError.
Proof.
  intros Hkind Hname Hres.
  assert (Hnone : schema_root_field schema (od_operation query) (fst f)
                  = None).
  { unfold schema_root_field. destruct (od_operation query);
      try rewrite Hkind; reflexivity. }
  unfold __init__. rewrite Hname. unfold _parse_query, bind.
  cbn [register_name obind fst snd public_names used_enums
       used_fragments_names app generate_class_def cd_name].
  rewrite Hres. cbn [obind fst snd]. destruct f as [name sel].
  rewrite (query_fields_undefined _ _ _ _ _ _ [] name sel fs 1 st' Hnone).
  reflexivity.
Qed.

Lemma operation_without_root_type_witness :
  od_name Cases.watch = Some "Watch" /\
  _resolve_selection_set Sample.fragments 3 (od_selection_set Cases.watch)
    "" (mkState ["Watch"] [] ∅)
  = Ok ([("user", Some [FieldNode "id" None])], mkState ["Watch"] [] ∅) /\
  Sample.run Cases.watch = Err ParsingError.
Proof.
  assert (Hres : _resolve_selection_set (default ∅ (Some Sample.fragments)) 3
                   (od_selection_set Cases.watch) ""
                   (mkState ["Watch"] [] ∅)
                 = Ok ([("user", Some [FieldNode "id" None])],
                       mkState ["Watch"] [] ∅))
    by (vm_compute; reflexivity).
  split; [reflexivity|]. split; [exact Hres|].
  exact (operation_without_root_type 3 Sample.parse Sample.schema
           Sample.fields Sample.class_types Cases.watch "enums"
           (Some Sample.fragments) None "Watch" _ _ _ I eq_refl Hres).
Defined.

(** ** The emitted classes *)

Section class_facts.
Context {GraphQLType : Type}.
Variable parse_field_type : GraphQLType -> expr.
Variable schema : GraphQLSchema GraphQLType.
Variable fields : gmap string (gmap string field_definition).
Variable class_types : gmap string ClassType.
Variable operation : OperationType.
Variable query_name : string.
Variable fragments_definitions : gmap string FragmentDefinitionNode.

Local Abbreviation well_formed := (class_well_formed query_name).
Local Abbreviation makes_well_formed := (makes_well_formed query_name).

Lemma dependency_fields_body rec type_name lineno fs st r st' :
  dependency_fields fields class_types query_name rec type_name lineno fs st
    = Ok (r, st') ->
  map fd_lineno (fst r) = map Some (seq lineno (length fs)).
Proof.
  revert lineno st r st'.
  induction fs as [|[name sel] rest IH]; intros lineno st r st'; simpl.
  - by intros [= <- <-].
  - unfold bind, lift. intros H.
    destruct (_get_schema_field_definition fields type_name name)
      as [[target a value l0 | ? ?] | |];
      cbn [obind fst snd] in H; try discriminate H.
    obind_inv H. destruct a0 as [a' s1]. cbn [fst snd] in H.
    obind_inv H. destruct a0 as [deps s2]. cbn [fst snd] in H.
    obind_inv H. destruct a0 as [r' s3]. cbn [fst snd] in H.
    injection H as <- <-. simpl. f_equal. eapply IH; eauto.
Qed.

Lemma query_fields_body rec lineno fs st r st' :
  query_fields parse_field_type schema class_types operation query_name rec
               lineno fs st = Ok (r, st') ->
  map fd_lineno (fst r) = map Some (seq lineno (length fs)).
Proof.
  revert lineno st r st'.
  induction fs as [|[name sel] rest IH]; intros lineno st r st'; simpl.
  - by intros [= <- <-].
  - unfold bind, lift. intros H.
    destruct (_get_field_type_from_schema schema operation name)
      as [t | |]; cbn [obind fst snd] in H; try discriminate H.
    obind_inv H. destruct a as [a' s1]. cbn [fst snd] in H.
    obind_inv H. destruct a as [deps s2]. cbn [fst snd] in H.
    obind_inv H. destruct a as [r' s3]. cbn [fst snd] in H.
    injection H as <- <-. simpl. f_equal. eapply IH; eauto.
Qed.

Lemma body_well_formed type_name body n :
  map fd_lineno body = map Some (seq 1 n) ->
  well_formed
    (with_body (generate_class_def (query_name +:+ type_name) ["BaseModel"])
               body).
Proof.
  intros Hbody. split; [reflexivity|]. split; [by exists type_name|].
  assert (Hlen : length body = n).
  { apply (f_equal length) in Hbody.
    by rewrite !length_map, length_seq in Hbody. }
  simpl. by rewrite Hbody, Hlen.
Qed.

Lemma dependencies_of_well_formed rec type_names sel st ds st' :
  makes_well_formed rec ->
  dependencies_of rec type_names sel st = Ok (ds, st') ->
  Forall well_formed ds.
Proof.
  intros Hrec. revert st ds st'.
  induction type_names as [|n type_names IH]; intros st ds st'; simpl.
  - intros [= <- <-]. constructor.
  - unfold bind. intros H.
    obind_inv H. destruct a as [r s1]. cbn [fst snd] in H.
    obind_inv H. destruct a as [more s2]. cbn [fst snd] in H.
    injection H as <- <-. apply Forall_app. split; eauto.
Qed.

Lemma field_dependencies_well_formed rec type_names sel st ds st' :
  makes_well_formed rec ->
  field_dependencies rec type_names sel st = Ok (ds, st') ->
  Forall well_formed ds.
Proof.
  intros Hrec. destruct sel as [sel|]; simpl.
  - by apply dependencies_of_well_formed.
  - intros [= <- <-]. constructor.
Qed.

Lemma dependency_fields_well_formed rec type_name lineno fs st r st' :
  makes_well_formed rec ->
  dependency_fields fields class_types query_name rec type_name lineno fs st
    = Ok (r, st') ->
  Forall well_formed (snd r).
Proof.
  intros Hrec. revert lineno st r st'.
  induction fs as [|[name sel] rest IH]; intros lineno st r st'; simpl.
  - intros [= <- <-]. constructor.
  - unfold bind, lift. intros H.
    destruct (_get_schema_field_definition fields type_name name)
      as [[target a value l0 | ? ?] | |];
      cbn [obind fst snd] in H; try discriminate H.
    obind_inv H. destruct a0 as [a' s1]. cbn [fst snd] in H.
    obind_inv H. destruct a0 as [deps s2]. cbn [fst snd] in H.
    obind_inv H. destruct a0 as [r' s3]. cbn [fst snd] in H.
    injection H as <- <-. cbn [snd]. apply Forall_app. split.
    + eapply field_dependencies_well_formed; eauto.
    + eapply IH; eauto.
Qed.

Lemma query_fields_well_formed rec lineno fs st r st' :
  makes_well_formed rec ->
  query_fields parse_field_type schema class_types operation query_name rec
               lineno fs st = Ok (r, st') ->
  Forall well_formed (snd r).
Proof.
  intros Hrec. revert lineno st r st'.
  induction fs as [|[name sel] rest IH]; intros lineno st r st'; simpl.
  - intros [= <- <-]. constructor.
  - unfold bind, lift. intros H.
    destruct (_get_field_type_from_schema schema operation name)
      as [t | |]; cbn [obind fst snd] in H; try discriminate H.
    obind_inv H. destruct a as [a' s1]. cbn [fst snd] in H.
    obind_inv H. destruct a as [deps s2]. cbn [fst snd] in H.
    obind_inv H. destruct a as [r' s3]. cbn [fst snd] in H.
    injection H as <- <-. cbn [snd]. apply Forall_app. split.
    + eapply field_dependencies_well_formed; eauto.
    + eapply IH; eauto.
Qed.

Lemma generate_dependency_type_class_well_formed fuel :
  makes_well_formed
    (_generate_dependency_type_class fields class_types query_name
       fragments_definitions fuel).
Proof.
  induction fuel as [|fuel IH]; intros type_name sel st r st'; simpl;
    case_bool_decide as Hin; try discriminate.
  - intros [= <- <-]. constructor.
  - intros [= <- <-]. constructor.
  - unfold bind. cbn [register_name obind fst snd]. intros H.
    obind_inv H. destruct a as [fs s1]. cbn [fst snd] in H.
    obind_inv H. destruct a as [r' s2]. cbn [fst snd] in H.
    injection H as <- <-. cbn [default app]. constructor.
    + eapply body_well_formed, dependency_fields_body; eauto.
    + eapply dependency_fields_well_formed; eauto.
Qed.

Lemma parse_query_well_formed fuel sel st cds st' :
  _parse_query parse_field_type schema fields class_types operation
               query_name fragments_definitions fuel sel st = Ok (cds, st') ->
  Forall well_formed cds.
Proof.
  unfold _parse_query, bind. cbn [register_name obind fst snd]. intros H.
  obind_inv H. destruct a as [fs s1]. cbn [fst snd] in H.
  obind_inv H. destruct a as [r' s2]. cbn [fst snd] in H.
  injection H as <- <-. cbn [app]. constructor.
  - pose proof (body_well_formed "" (fst r') (length fs)) as Hwf.
    rewrite append_empty_r in Hwf. eapply Hwf, query_fields_body; eauto.
  - eapply query_fields_well_formed; eauto.
    apply generate_dependency_type_class_well_formed.
Qed.

End class_facts.

(** X12.  Every class of a generator that [__init__] built derives from
    [BaseModel], has a name that begins with the name of the operation, and
    has for body annotated assignments numbered 1, 2, ... in order. *)
Theorem emitted_classes_well_formed {GraphQLType : Type} fuel
  (parse_field_type : GraphQLType -> expr) schema fields class_types query
  enums_module_name fragments_definitions base_model_import g :
  __init__ fuel parse_field_type schema fields class_types query
           enums_module_name fragments_definitions base_model_import = Ok g ->
  Forall (class_well_formed (g_query_name g)) (g_class_defs g).
Proof.
  intros (qn & cds & st' & _ & Hrun & ->)%init_inv.
  cbn [g_query_name g_class_defs]. by eapply parse_query_well_formed.
Qed.

Lemma emitted_classes_well_formed_witness :
  Sample.run Sample.get_user = Ok Sample.get_user_generator /\
  Forall (class_well_formed "GetUser")
         (g_class_defs Sample.get_user_generator).
Proof.
  assert (Hrun : Sample.run Sample.get_user = Ok Sample.get_user_generator)
    by (vm_compute; reflexivity).
  split; [exact Hrun|].
  exact (emitted_classes_well_formed 3 Sample.parse Sample.schema
           Sample.fields Sample.class_types Sample.get_user "enums"
           (Some Sample.fragments) None Sample.get_user_generator Hrun).
Defined.

Lemma procces_annotation_result class_types query_name a names st a' st' :
  _procces_annotation class_types query_name a names st = Ok (a', st') ->
  a' = a \/ a' = prefix_leaves query_name a.
Proof.
  unfold _procces_annotation. destruct (existsb _ _).
  - unfold lift. rewrite add_prefix_spec.
    destruct (all_leaves_quoted a); [|discriminate].
    intros [= <- _]. by right.
  - intros [= <- _]. by left.
Qed.

Lemma dependency_fields_copies fields class_types query_name rec type_name
  lineno fs st r st' :
  dependency_fields fields class_types query_name rec type_name lineno fs st
    = Ok (r, st') ->
  Forall2 (copies_definition fields query_name type_name) fs (fst r).
Proof.
  revert lineno st r st'.
  induction fs as [|[name sel] rest IH]; intros lineno st r st'; simpl.
  - intros [= <- <-]. constructor.
  - unfold bind, lift. intros H.
    destruct (_get_schema_field_definition fields type_name name)
      as [[target a value l0 | ? ?] | |] eqn:Hdef;
      cbn [obind fst snd] in H; try discriminate H.
    obind_inv H. destruct a0 as [a' s1]. cbn [fst snd] in H.
    obind_inv H. destruct a0 as [deps s2]. cbn [fst snd] in H.
    obind_inv H. destruct a0 as [r' s3]. cbn [fst snd] in H.
    injection H as <- <-. cbn [fst]. constructor; [|eapply IH; eauto].
    exists target, a, value, l0, a', lineno. split; [exact Hdef|].
    split; [reflexivity|]. by eapply procces_annotation_result.
Qed.

(** X13.  When the synthesizer creates definitions for a type, the first is
    the class of that type, named [query_name + type_name], with one field
    per field the selection set resolves to, in order and without merging
    repeated selections; each field keeps the target and the default value
    of the registry's definition of the selected field (of the synthetic
    one for [__typename]), and has its annotation, as it is or
    rewritten. *)
Theorem synthesized_class_fields fields class_types query_name
  fragments_definitions fuel type_name sel st ds st' :
  _generate_dependency_type_class fields class_types query_name
    fragments_definitions fuel type_name sel st = Ok (Some ds, st') ->
  exists c extra fs,
    ds = c :: extra /\
    cd_name c = query_name +:+ type_name /\
    resolves fragments_definitions sel type_name fs /\
    Forall2 (copies_definition fields query_name type_name) fs (cd_body c).
Proof.
  destruct fuel as [|fuel]; simpl; case_bool_decide as Hin;
    try discriminate.
  unfold bind. cbn [register_name obind fst snd]. intros H.
  obind_inv H. destruct a as [fs s1]. cbn [fst snd] in H.
  obind_inv H. destruct a as [r s2]. cbn [fst snd] in H.
  injection H as <- <-.
  eexists _, _, fs. split; [reflexivity|]. split; [reflexivity|].
  split; [by eexists _, _, _|].
  simpl. by eapply dependency_fields_copies.
Qed.

Lemma synthesized_class_fields_witness :
  exists c extra st',
    _generate_dependency_type_class Sample.fields Sample.class_types "Q"
      Sample.fragments 2 "User"
      [FieldNode "id" None; FieldNode "__typename" None; FieldNode "id" None]
      Sample.empty_state = Ok (Some (c :: extra), st') /\
    cd_name c = "QUser" /\ length (cd_body c) = 3.
Proof.
  assert (H :
    _generate_dependency_type_class Sample.fields Sample.class_types "Q"
      Sample.fragments 2 "User"
      [FieldNode "id" None; FieldNode "__typename" None; FieldNode "id" None]
      Sample.empty_state
    = Ok (Some
            [mkClassDef "QUser" ["BaseModel"]
               [AnnAssign (Name "id") (Sample.optional (Name "str")) None 1;
                AnnAssign (Name "typename__") (Name "str")
                  (Some (OtherExpr "Field(alias='__typename')")) 2;
                AnnAssign (Name "id") (Sample.optional (Name "str")) None 3]],
          mkState ["QUser"] [] ∅))
    by (vm_compute; reflexivity).
  destruct (synthesized_class_fields _ _ _ _ _ _ _ _ _ _ H)
    as (c & extra & fs & [= <- <-] & Hname & _ & _).
  eexists _, _, _. split; [exact H|]. split; [exact Hname | reflexivity].
Defined.

Lemma query_fields_flat {GraphQLType : Type}
  (parse_field_type : GraphQLType -> expr) schema class_types operation
  query_name rec lineno fs st r st' :
  Forall (fun f : field_node => snd f = None) fs ->
  query_fields parse_field_type schema class_types operation query_name rec
               lineno fs st = Ok (r, st') ->
  snd r = [] /\
  public_names st' = public_names st /\
  used_fragments_names st' = used_fragments_names st.
Proof.
  intros Hflat. revert lineno st r st'.
  induction Hflat as [|[name sel] rest Hsel _ IH]; intros lineno st r st';
    simpl.
  - by intros [= <- <-].
  - simpl in Hsel. subst sel. unfold bind, lift. intros H.
    destruct (_get_field_type_from_schema schema operation name)
      as [t | |]; cbn [obind fst snd] in H; try discriminate H.
    obind_inv H. destruct a as [a' s1]. cbn [fst snd] in H.
    cbn [field_dependencies ret obind fst snd] in H.
    obind_inv H. destruct a as [r' s3]. cbn [fst snd] in H.
    injection H as <- <-. apply IH in E0 as (-> & Hp & Hu).
    pose proof (procces_annotation_public _ _ _ _ _ _ _ E) as Hp1.
    pose proof (procces_annotation_used _ _ _ _ _ _ _ E) as Hu1.
    simpl. by rewrite Hp, Hu, Hp1, Hu1.
Qed.

(** X14.  For an operation whose selection set is made of fields without
    nested selection sets, the generator has the class of the operation
    alone, with one field per selected field, whatever the types of the
    fields (none is synthesized, also when an annotation was rewritten to
    refer to one); it registers only the name of the operation and uses no
    fragment. *)
Theorem flat_operation {GraphQLType : Type} fuel
  (parse_field_type : GraphQLType -> expr) schema fields class_types query
  enums_module_name fragments_definitions base_model_import g fs :
  Forall (fun f : field_node => snd f = None) fs ->
  od_selection_set query = map field_selection fs ->
  __init__ fuel parse_field_type schema fields class_types query
           enums_module_name fragments_definitions base_model_import = Ok g ->
  exists body,
    g_class_defs g = [mkClassDef (g_query_name g) ["BaseModel"] body] /\
    length body = length fs /\
    g_public_names g = [g_query_name g] /\
    g_used_fragments_names g = ∅.
Proof.
  intros Hflat Hsel (qn & cds & st' & _ & Hrun & ->)%init_inv.
  cbn [g_class_defs g_query_name g_public_names g_used_fragments_names].
  unfold _parse_query, bind in Hrun.
  cbn [register_name obind fst snd] in Hrun.
  rewrite Hsel, resolve_field_selections in Hrun.
  cbn [obind fst snd] in Hrun.
  obind_inv Hrun. destruct a as [r s2]. cbn [fst snd] in Hrun.
  injection Hrun as <- <-.
  pose proof (query_fields_body _ _ _ _ _ _ _ _ _ _ _ E) as Hbody.
  apply (f_equal length) in Hbody.
  rewrite !length_map, length_seq in Hbody.
  apply (query_fields_flat _ _ _ _ _ _ _ _ _ _ _ Hflat) in E
    as (Hextra & Hp & Hu).
  exists (fst r). rewrite Hextra, Hp, Hu. simpl. auto.
Qed.

Lemma flat_operation_witness :
  od_selection_set Cases.flat
  = map field_selection [("user", None); ("color", None)] /\
  Sample.run Cases.flat = Ok Cases.flat_generator /\
  map cd_name (g_class_defs Cases.flat_generator) = ["Flat"] /\
  map (fun c => length (cd_body c)) (g_class_defs Cases.flat_generator) = [2].
Proof.
  assert (Hrun : Sample.run Cases.flat = Ok Cases.flat_generator)
    by (vm_compute; reflexivity).
  split; [reflexivity|]. split; [exact Hrun|].
  destruct (flat_operation 3 Sample.parse Sample.schema Sample.fields
              Sample.class_types Cases.flat "enums" (Some Sample.fragments)
              None Cases.flat_generator [("user", None); ("color", None)])
    as (body & Hcds & Hlen & _ & _);
    [repeat constructor | reflexivity | exact Hrun |].
  rewrite Hcds. simpl. rewrite Hlen. split; reflexivity.
Defined.
